(** * The GraphQL changelog builder: [script/graphql/build-changelog.js]

    A shallow embedding of the changelog builder and the proofs of its
    documented properties.

    Modelling conventions.
    - JavaScript strings are Rocq strings; the code only ever inspects ASCII
      characters (quotes, dots, letters, digits), and case mapping of
      characters outside ASCII is not modelled.
    - An object used as a dictionary is a finite map over its own properties
      together with what every plain object inherits from
      [Object.prototype]: [pathToPreview] is a [gmap string string];
      [changesByPreview], whose enumeration order is observable through
      [for ... in], is an association list in insertion order ([JsObject]);
      a read [o[key]] that finds no own property returns the inherited
      member when [key] names one ([Js.getProperty]).  The assignment
      [pathToPreview[path] = title] is taken to create the property for every
      [path]; a preview that lists the path [__proto__], which no schema
      has, is outside the model.
    - [loadSchema] and [diff] belong to external libraries and are section
      variables; [ChangeType] is the enumeration of the diff library, of which
      the script names fifty-two members.
    - A [throw] is the [Throw] outcome of the [Result] type. *)

From Stdlib Require Import String Ascii NArith Lia.
From stdpp Require Import gmap strings list pretty.
From Equations Require Import Equations.

(** Case analysis on the eight bits of a character. *)
Ltac ascii_cases c := destruct c as [[] [] [] [] [] [] [] []].

(** ** JavaScript string and array primitives used by the script *)

Module Js.

(** The values [previewTitle] can hold. *)
Inductive value :=
| Null                    (* the initial [null] *)
| Undefined               (* the value of a property that is not there *)
| Str (s : string)
| Member (name : string). (* [Object.prototype[name]]: a built-in function,
                             or for [__proto__] the prototype object *)

(** [if (v)]: of the strings only the non-empty ones are truthy; functions
    and objects are. *)
Definition truthy (v : value) : bool :=
  match v with
  | Str (String _ _) => true
  | Member _ => true
  | Str EmptyString => false
  | Null => false
  | Undefined => false
  end.

(** The names under which a plain object [{}] inherits a member of
    [Object.prototype]. *)
Definition objectPrototypeMembers : list string :=
  [ "constructor"; "__defineGetter__"; "__defineSetter__"; "hasOwnProperty";
    "__lookupGetter__"; "__lookupSetter__"; "isPrototypeOf";
    "propertyIsEnumerable"; "toString"; "valueOf"; "__proto__";
    "toLocaleString" ].

Definition inherits (key : string) : bool :=
  bool_decide (key ∈ objectPrototypeMembers).

(** What [o[key]] finds on a plain object whose own property of that name,
    if any, is [own]. *)
Inductive property (V : Type) :=
| Own (v : V)
| Inherited (name : string)
| Missing.
Arguments Own {V} v.
Arguments Inherited {V} name.
Arguments Missing {V}.

Definition getProperty {V} (own : option V) (key : string) : property V :=
  match own with
  | Some v => Own v
  | None => if inherits key then Inherited key else Missing
  end.

(** [String(v)], the property key that [o[v]] uses.  The text of a built-in
    function names it; [constructor] is the function [Object]. *)
Definition toPropertyKey (v : value) : string :=
  match v with
  | Null => "null"
  | Undefined => "undefined"
  | Str s => s
  | Member name =>
      if String.eqb name "__proto__" then "[object Object]"
      else "function "
           +:+ (if String.eqb name "constructor" then "Object" else name)
           +:+ "() { [native code] }"
  end.

(** [s.split(".")]: the segments between dots; never an empty array. *)
Fixpoint split_dot (s : string) : list string :=
  match s with
  | EmptyString => [EmptyString]
  | String c rest =>
      if Ascii.eqb c "." then EmptyString :: split_dot rest
      else match split_dot rest with
           | seg :: segs => String c seg :: segs
           | [] => [String c EmptyString]
           end
  end.

(** [parts.join(".")]. *)
Fixpoint join_dot (parts : list string) : string :=
  match parts with
  | [] => EmptyString
  | [seg] => seg
  | seg :: rest => seg +:+ "." +:+ join_dot rest
  end.

(** [parts.pop()], as far as the array is concerned. *)
Definition pop {A} (parts : list A) : list A := removelast parts.

(** [s.endsWith(suffix)]. *)
Definition endsWith (s suffix : string) : bool :=
  let n := String.length s in
  let k := String.length suffix in
  (k <=? n)%nat && String.eqb (substring (n - k) k s) suffix.

(** ASCII case mapping of [s.toLowerCase()]. *)
Definition lower_char (c : ascii) : ascii :=
  let n := nat_of_ascii c in
  if ((65 <=? n) && (n <=? 90))%nat then ascii_of_nat (n + 32) else c.

Fixpoint toLowerCase (s : string) : string :=
  match s with
  | EmptyString => EmptyString
  | String c rest => String (lower_char c) (toLowerCase rest)
  end.

(** [s.replace(/C/g, r)] for a one-character pattern [C] given as a
    predicate: every matching character is replaced by [r]. *)
Fixpoint replace_chars (matches : ascii -> bool) (r : string) (s : string) : string :=
  match s with
  | EmptyString => EmptyString
  | String c rest =>
      if matches c then r +:+ replace_chars matches r rest
      else String c (replace_chars matches r rest)
  end.

Definition is_upper (c : ascii) : bool :=
  let n := nat_of_ascii c in ((65 <=? n) && (n <=? 90))%nat.
Definition is_lower (c : ascii) : bool :=
  let n := nat_of_ascii c in ((97 <=? n) && (n <=? 122))%nat.
Definition is_digit (c : ascii) : bool :=
  let n := nat_of_ascii c in ((48 <=? n) && (n <=? 57))%nat.

(** The class [\w]: [A-Za-z0-9_]. *)
Definition is_word (c : ascii) : bool :=
  is_upper c || is_lower c || is_digit c || Ascii.eqb c "_".

End Js.

(** ** Objects whose property order is observable *)

Module JsObject.
Section Obj.
Context {V : Type}.

(** Own string-keyed properties, in insertion order, without duplicate
    keys. *)
Definition t := list (string * V).

Definition empty : t := [].

(** [o[k]]: [None] stands for [undefined]. *)
Fixpoint get (k : string) (o : t) : option V :=
  match o with
  | [] => None
  | (k', v) :: o' => if String.eqb k k' then Some v else get k o'
  end.

(** [o[k] = v]: an existing property keeps its place, a new one goes
    last. *)
Fixpoint set (k : string) (v : V) (o : t) : t :=
  match o with
  | [] => [(k, v)]
  | (k', v') :: o' =>
      if String.eqb k k' then (k, v) :: o' else (k', v') :: set k v o'
  end.

Fixpoint digits_value (s : string) (acc : N) : option N :=
  match s with
  | EmptyString => Some acc
  | String c rest =>
      if Js.is_digit c
      then digits_value rest (10 * acc + (N_of_ascii c - 48))%N
      else None
  end.

(** A key is an array index when it is the canonical decimal form of an
    integer below 2^32 - 1. *)
Definition array_index (k : string) : option N :=
  match k with
  | EmptyString => None
  | String c rest =>
      if Ascii.eqb c "0" && negb (String.eqb rest EmptyString) then None
      else match digits_value k 0%N with
           | Some n => if (n <=? 4294967294)%N then Some n else None
           | None => None
           end
  end.

Definition index_entries (o : t) : list (N * (string * V)) :=
  omap (fun kv => match array_index kv.1 with
                  | Some n => Some (n, kv)
                  | None => None
                  end) o.

Definition named_entries (o : t) : list (string * V) :=
  List.filter (fun kv => match array_index kv.1 with
                         | Some _ => false
                         | None => true
                         end) o.

Fixpoint insert_by_index (e : N * (string * V))
    (sorted : list (N * (string * V))) : list (N * (string * V)) :=
  match sorted with
  | [] => [e]
  | e' :: rest =>
      if (e.1 <? e'.1)%N then e :: sorted
      else e' :: insert_by_index e rest
  end.

(** The properties in the order of [for (const k in o)]: array indices
    ascending, then the other keys in insertion order. *)
Definition forIn (o : t) : list (string * V) :=
  (snd <$> foldr insert_by_index [] (index_entries o))
  ++ named_entries o.

Definition values (o : t) : list V := snd <$> o.
End Obj.
Arguments t : clear implicits.
End JsObject.

(** ** Data model *)

Module ChangeType.
(** The kinds of change the script names, as members of the diff library's
    enumeration; [Other] is any kind the script does not name. *)
Inductive t : Set :=
| FieldArgumentDefaultChanged | FieldArgumentTypeChanged
| EnumValueRemoved | EnumValueAdded
| FieldRemoved | FieldAdded | FieldTypeChanged
| FieldArgumentAdded | FieldArgumentRemoved
| ObjectTypeInterfaceAdded | ObjectTypeInterfaceRemoved
| InputFieldRemoved | InputFieldAdded
| InputFieldDefaultValueChanged | InputFieldTypeChanged
| TypeRemoved | TypeAdded | TypeKindChanged
| UnionMemberRemoved | UnionMemberAdded
| SchemaQueryTypeChanged | SchemaMutationTypeChanged
| SchemaSubscriptionTypeChanged
| FieldArgumentDescriptionChanged
| DirectiveRemoved | DirectiveAdded | DirectiveDescriptionChanged
| DirectiveLocationAdded | DirectiveLocationRemoved
| DirectiveArgumentAdded | DirectiveArgumentRemoved
| DirectiveArgumentDescriptionChanged
| DirectiveArgumentDefaultValueChanged
| DirectiveArgumentTypeChanged
| EnumValueDescriptionChanged
| EnumValueDeprecationReasonChanged
| EnumValueDeprecationReasonAdded
| EnumValueDeprecationReasonRemoved
| FieldDescriptionChanged | FieldDescriptionAdded | FieldDescriptionRemoved
| FieldDeprecationAdded | FieldDeprecationRemoved
| FieldDeprecationReasonChanged
| FieldDeprecationReasonAdded
| FieldDeprecationReasonRemoved
| InputFieldDescriptionAdded | InputFieldDescriptionRemoved
| InputFieldDescriptionChanged
| TypeDescriptionChanged | TypeDescriptionRemoved | TypeDescriptionAdded
| Other (name : string).

#[global] Instance eq_dec : EqDecision t.
Proof. solve_decision. Defined.
End ChangeType.

Module Change.
(** A record of the diff: the script reads these three fields. *)
Record t := { type : ChangeType.t; path : string; message : string }.
End Change.

Module Preview.
(** An entry of [graphql_previews.yml]. *)
Record t := { title : string; toggled_on : list string }.
End Preview.

Module PreviewChanges.
(** A bucket of [changesByPreview]; [title] is the value of [previewTitle]
    when the bucket was created. *)
Record t := { title : Js.value; changes : list Change.t }.
End PreviewChanges.

Module ChangelogSection.
Record t := { title : string; changes : list string }.
End ChangelogSection.

Module ChangelogEntry.
Record t := {
  schemaChanges : list ChangelogSection.t;
  previewChanges : list ChangelogSection.t;
  upcomingChanges : list ChangelogSection.t
}.
End ChangelogEntry.

(** ** Outcomes of a call that may throw *)

Inductive Exception :=
| ThrownString (text : string) (type : ChangeType.t)
    (* the thrown value is [text + type] *)
| LoadSchemaRejected (source : string)
| TypeErrorOfUndefined (property : string).
    (* [undefined.property]: a [TypeError] *)

Inductive Result (A : Type) :=
| Ok (a : A)
| Throw (e : Exception).
Arguments Ok {A} a.
Arguments Throw {A} e.

(** An exception ends the computation; [x ← r; k] is stdpp's monadic bind. *)
#[global] Instance Result_bind : MBind Result := fun A B k r =>
  match r with
  | Ok a => k a
  | Throw e => Throw e
  end.

(** [xs.includes(x)]. *)
Definition includes `{EqDecision A} (xs : list A) (x : A) : bool :=
  bool_decide (x ∈ xs).

Definition CHANGES_TO_REPORT : list ChangeType.t := [
  ChangeType.FieldArgumentDefaultChanged;
  ChangeType.FieldArgumentTypeChanged;
  ChangeType.EnumValueRemoved;
  ChangeType.EnumValueAdded;
  ChangeType.FieldRemoved;
  ChangeType.FieldAdded;
  ChangeType.FieldTypeChanged;
  ChangeType.FieldArgumentAdded;
  ChangeType.FieldArgumentRemoved;
  ChangeType.ObjectTypeInterfaceAdded;
  ChangeType.ObjectTypeInterfaceRemoved;
  ChangeType.InputFieldRemoved;
  ChangeType.InputFieldAdded;
  ChangeType.InputFieldDefaultValueChanged;
  ChangeType.InputFieldTypeChanged;
  ChangeType.TypeRemoved;
  ChangeType.TypeAdded;
  ChangeType.TypeKindChanged;
  ChangeType.UnionMemberRemoved;
  ChangeType.UnionMemberAdded;
  ChangeType.SchemaQueryTypeChanged;
  ChangeType.SchemaMutationTypeChanged;
  ChangeType.SchemaSubscriptionTypeChanged
].

Definition CHANGES_TO_IGNORE : list ChangeType.t := [
  ChangeType.FieldArgumentDescriptionChanged;
  ChangeType.DirectiveRemoved;
  ChangeType.DirectiveAdded;
  ChangeType.DirectiveDescriptionChanged;
  ChangeType.DirectiveLocationAdded;
  ChangeType.DirectiveLocationRemoved;
  ChangeType.DirectiveArgumentAdded;
  ChangeType.DirectiveArgumentRemoved;
  ChangeType.DirectiveArgumentDescriptionChanged;
  ChangeType.DirectiveArgumentDefaultValueChanged;
  ChangeType.DirectiveArgumentTypeChanged;
  ChangeType.EnumValueDescriptionChanged;
  ChangeType.EnumValueDeprecationReasonChanged;
  ChangeType.EnumValueDeprecationReasonAdded;
  ChangeType.EnumValueDeprecationReasonRemoved;
  ChangeType.FieldDescriptionChanged;
  ChangeType.FieldDescriptionAdded;
  ChangeType.FieldDescriptionRemoved;
  ChangeType.FieldDeprecationAdded;
  ChangeType.FieldDeprecationRemoved;
  ChangeType.FieldDeprecationReasonChanged;
  ChangeType.FieldDeprecationReasonAdded;
  ChangeType.FieldDeprecationReasonRemoved;
  ChangeType.InputFieldDescriptionAdded;
  ChangeType.InputFieldDescriptionRemoved;
  ChangeType.InputFieldDescriptionChanged;
  ChangeType.TypeDescriptionChanged;
  ChangeType.TypeDescriptionRemoved;
  ChangeType.TypeDescriptionAdded
].

(** ** The classifier: the [changes.forEach] of [createChangelogEntry]
    (lines 57-66) *)

Definition unknown_type_text : string :=
  "This change type should be added to CHANGES_TO_REPORT or CHANGES_TO_IGNORE: ".

(** One run of the loop body on [change]; [changesToReport] is the array
    being filled. *)
Definition classifyChange (changesToReport : list Change.t) (change : Change.t)
    : Result (list Change.t) :=
  if includes CHANGES_TO_REPORT (Change.type change) then
    Ok (changesToReport ++ [change])
  else if includes CHANGES_TO_IGNORE (Change.type change) then
    Ok changesToReport
  else
    Throw (ThrownString unknown_type_text (Change.type change)).

(** [forEach] with a body that may throw: the first exception ends the loop. *)
Fixpoint forEachChange (changes : list Change.t) (changesToReport : list Change.t)
    : Result (list Change.t) :=
  match changes with
  | [] => Ok changesToReport
  | change :: rest =>
      changesToReport' ← classifyChange changesToReport change;
      forEachChange rest changesToReport'
  end.

Definition classifyChanges (changes : list Change.t) : Result (list Change.t) :=
  forEachChange changes [].

(** ** [segmentPreviewChanges] *)

(** The map [{ path => previewTitle }] built by the two nested [forEach]. *)
Definition buildPathToPreview (previews : list Preview.t) : gmap string string :=
  foldl (fun pathToPreview preview =>
           foldl (fun pathToPreview path =>
                    <[path := Preview.title preview]> pathToPreview)
                 pathToPreview (Preview.toggled_on preview))
        ∅ previews.

(** [pathToPreview[testPath]]. *)
Definition readPathToPreview (pathToPreview : gmap string string)
    (testPath : string) : Js.value :=
  match Js.getProperty (pathToPreview !! testPath) testPath with
  | Js.Own title => Js.Str title
  | Js.Inherited name => Js.Member name
  | Js.Missing => Js.Undefined
  end.

(** The [while (pathParts.length > 0 && !previewTitle)] loop, from a given
    state of [pathParts] and [previewTitle]; the result is the final
    [previewTitle]. *)
Equations? ancestorLoop (pathToPreview : gmap string string)
    (pathParts : list string) (previewTitle : Js.value)
    : Js.value by wf (length pathParts) lt :=
  ancestorLoop pathToPreview [] previewTitle := previewTitle;
  ancestorLoop pathToPreview (part :: parts) previewTitle
    with Js.truthy previewTitle => {
    | true := previewTitle;
    | false :=
        let testPath := Js.join_dot (part :: parts) in
        ancestorLoop pathToPreview (Js.pop (part :: parts))
                     (readPathToPreview pathToPreview testPath) }.
Proof.
  unfold Js.pop. clear. revert part.
  induction parts as [|p ps IH]; intros part; simpl in *; [lia|].
  specialize (IH p). lia.
Qed.

Record Segments := {
  schemaChangesToReport : list Change.t;
  previewChangesToReport : JsObject.t PreviewChanges.t
}.

(** The body of [changesToReport.forEach], on the pair of [schemaChanges] and
    [changesByPreview].  [changesByPreview[previewTitle]] is read under the
    key [String(previewTitle)]; an inherited member is truthy and has no
    [changes], so [previewChanges.changes.push] throws on it. *)
Definition segmentChange (pathToPreview : gmap string string)
    (acc : list Change.t * JsObject.t PreviewChanges.t) (change : Change.t)
    : Result (list Change.t * JsObject.t PreviewChanges.t) :=
  let '(schemaChanges, changesByPreview) := acc in
  let pathParts := Js.split_dot (Change.path change) in
  let previewTitle := ancestorLoop pathToPreview pathParts Js.Null in
  if Js.truthy previewTitle then
    let key := Js.toPropertyKey previewTitle in
    match Js.getProperty (JsObject.get key changesByPreview) key with
    | Js.Own previewChanges =>
        (* [push] mutates the bucket held by [changesByPreview] *)
        Ok (schemaChanges,
            JsObject.set key
              {| PreviewChanges.title := PreviewChanges.title previewChanges;
                 PreviewChanges.changes :=
                   PreviewChanges.changes previewChanges ++ [change] |}
              changesByPreview)
    | Js.Inherited _ => Throw (TypeErrorOfUndefined "push")
    | Js.Missing =>
        Ok (schemaChanges,
            JsObject.set key
              {| PreviewChanges.title := previewTitle;
                 PreviewChanges.changes := [] ++ [change] |}
              changesByPreview)
    end
  else
    Ok (schemaChanges ++ [change], changesByPreview).

(** [forEach] with a body that may throw. *)
Fixpoint forEachSegment (pathToPreview : gmap string string)
    (changesToReport : list Change.t)
    (acc : list Change.t * JsObject.t PreviewChanges.t)
    : Result (list Change.t * JsObject.t PreviewChanges.t) :=
  match changesToReport with
  | [] => Ok acc
  | change :: rest =>
      acc' ← segmentChange pathToPreview acc change;
      forEachSegment pathToPreview rest acc'
  end.

Definition segmentPreviewChanges (changesToReport : list Change.t)
    (previews : list Preview.t) : Result Segments :=
  let pathToPreview := buildPathToPreview previews in
  acc ← forEachSegment pathToPreview changesToReport ([], JsObject.empty);
  Ok {| schemaChangesToReport := acc.1;
        previewChangesToReport := acc.2 |}.

(** ** The formatters *)

Definition cleanPreviewTitle (title : string) : string :=
  if String.eqb title "UpdateRefsPreview" then "Update refs preview"
  else if String.eqb title "MergeInfoPreview" then "Merge info preview"
  else if negb (Js.endsWith title "preview") then title +:+ " preview"
  else title.

Definition previewAnchor (previewTitle : string) : string :=
  Js.replace_chars (fun c => negb (Js.is_word c || Ascii.eqb c "-")) ""
    (Js.replace_chars (fun c => Ascii.eqb c " ") "-"
       (Js.toLowerCase previewTitle)).

(** The class [[a-zA-Z\. :!]]. *)
Definition name_char (c : ascii) : bool :=
  Js.is_lower c || Js.is_upper c || Ascii.eqb c "." || Ascii.eqb c " "
  || Ascii.eqb c ":" || Ascii.eqb c "!".

(** The longest run of [name_char]s at the start of [s], and what follows. *)
Fixpoint span_name (s : string) : string * string :=
  match s with
  | String c rest =>
      if name_char c then
        let '(run, after) := span_name rest in (String c run, after)
      else (EmptyString, s)
  | EmptyString => (EmptyString, EmptyString)
  end.

(** A match of ['([a-zA-Z\. :!]+)'] at the start of [s]: the captured group
    and the text after the match.  The class excludes the quote, so the greedy
    run is the only one a closing quote can follow. *)
Definition match_quoted (s : string) : option (string * string) :=
  match s with
  | String "'" rest =>
      match span_name rest with
      | (String c run, String "'" after) => Some (String c run, after)
      | _ => None
      end
  | _ => None
  end.

Definition inspect {A} (a : A) : {b : A | a = b} := exist _ a eq_refl.

(** [message.replace(/'([a-zA-Z\. :!]+)'/g, '`$1`')]: matches are looked for
    from left to right, the search resuming after each match. *)
Equations? replace_quoted (message : string) : string
    by wf (String.length message) lt :=
  replace_quoted EmptyString := EmptyString;
  replace_quoted (String c rest) with inspect (match_quoted (String c rest)) => {
    | exist _ (Some (group, after)) _ :=
        "`" +:+ group +:+ "`" +:+ replace_quoted after;
    | exist _ None _ := String c (replace_quoted rest) }.
Proof.
  assert (Hspan : forall s, String.length (span_name s).2 <= String.length s).
  { clear. induction s as [|x s IH]; simpl; [lia|].
    destruct (name_char x); simpl; [|lia].
    destruct (span_name s); simpl in *. lia. }
  specialize (Hspan rest).
  ascii_cases c; try discriminate.
  destruct (span_name rest) as [[|x run] [|q after']]; try discriminate.
  ascii_cases q; try discriminate.
  injection e as _ <-. simpl in *. lia.
Qed.

Definition cleanMessagesFromChanges (changes : list Change.t) : list string :=
  (fun change => replace_quoted (Change.message change)) <$> changes.

(** ** [createChangelogEntry] *)

(** [v > 0] where [v] is the value of a property of [changesByPreview]:
    [undefined] and a bucket object both convert to [NaN], and a comparison
    with [NaN] is false. *)
Definition property_gt_zero (v : option PreviewChanges.t) : bool :=
  match v with
  | None => false
  | Some _ => false
  end.

Definition schemaChangesTitle : string :=
  "The GraphQL schema includes these changes:".

(** The section pushed for one key of [previewChangesToReport]. *)
Definition previewSection (previewTitle : string)
    (previewChanges : PreviewChanges.t) : ChangelogSection.t :=
  let cleanTitle := cleanPreviewTitle previewTitle in
  let entryTitle :=
    "The [" +:+ cleanTitle +:+ "](/graphql/overview/schema-previews#"
    +:+ previewAnchor cleanTitle +:+ ") includes these changes:" in
  {| ChangelogSection.title := entryTitle;
     ChangelogSection.changes :=
       cleanMessagesFromChanges (PreviewChanges.changes previewChanges) |}.

(** The entry assembled when there is something to report (lines 71-105). *)
Definition newChangelogEntry (schemaChangesToReport : list Change.t)
    (previewChangesToReport : JsObject.t PreviewChanges.t) : ChangelogEntry.t :=
  let schemaChange :=
    {| ChangelogSection.title := schemaChangesTitle;
       ChangelogSection.changes :=
         cleanMessagesFromChanges schemaChangesToReport |} in
  {| ChangelogEntry.schemaChanges := [] ++ [schemaChange];
     ChangelogEntry.previewChanges :=
       (fun kv => previewSection kv.1 kv.2)
         <$> JsObject.forIn previewChangesToReport;
     ChangelogEntry.upcomingChanges := [] |}.

Section CreateChangelogEntry.
(** The schema loader and the diff engine of the libraries the script
    requires.  A rejected [loadSchema] promise is [None]. *)
Context {Schema : Type}.
Variable loadSchema : string -> option Schema.
Variable diff : Schema -> Schema -> list Change.t.

Definition awaitLoadSchema (source : string) : Result Schema :=
  match loadSchema source with
  | Some schema => Ok schema
  | None => Throw (LoadSchemaRejected source)
  end.

(** The outcome of the promise: [Ok None] is a promise of [null]. *)
Definition createChangelogEntry (oldSchemaString newSchemaString : string)
    (previews : list Preview.t) : Result (option ChangelogEntry.t) :=
  oldSchema ← awaitLoadSchema oldSchemaString;
  newSchema ← awaitLoadSchema newSchemaString;
  let changes := diff oldSchema newSchema in
  changesToReport ← classifyChanges changes;
  segments ← segmentPreviewChanges changesToReport previews;
  let schemaChangesToReport := schemaChangesToReport segments in
  let previewChangesToReport := previewChangesToReport segments in
  if (0 <? length schemaChangesToReport)%nat
     || property_gt_zero (JsObject.get "length" previewChangesToReport)
  then Ok (Some (newChangelogEntry schemaChangesToReport previewChangesToReport))
  else Ok None.
End CreateChangelogEntry.

(** ** The date tag of [main] (lines 31-35) *)

Fixpoint repeat_string (n : nat) (pad : string) : string :=
  match n with
  | O => EmptyString
  | S n' => pad +:+ repeat_string n' pad
  end.

(** [s.padStart(targetLength, padString)]: the padding is [padString]
    repeated and cut to the missing length. *)
Definition padStart (targetLength : nat) (padString : string) (s : string) : string :=
  let missing := targetLength - String.length s in
  if (missing =? 0)%nat || String.eqb padString EmptyString then s
  else substring 0 missing (repeat_string missing padString) +:+ s.

(** [todayString], from the values of [getFullYear()], [getMonth()] and
    [getDate()]; [String(n)] of a non-negative integer is its decimal
    form. *)
Definition todayString (fullYear month date : N) : string :=
  pretty fullYear +:+ "-" +:+ padStart 2 "0" (pretty (month + 1)%N)
  +:+ "-" +:+ padStart 2 "0" (pretty date).

(** * Vocabulary of the stated properties *)

(** ** Kinds of change *)

(** A record whose kind is listed in [CHANGES_TO_REPORT]. *)
Definition reportable (c : Change.t) : Prop := Change.type c ∈ CHANGES_TO_REPORT.

(** A record whose kind is listed in [CHANGES_TO_IGNORE]. *)
Definition ignored (c : Change.t) : Prop := Change.type c ∈ CHANGES_TO_IGNORE.

(** A record whose kind is in neither list. *)
Definition unknown_kind (c : Change.t) : Prop := ¬ reportable c ∧ ¬ ignored c.

#[global] Instance reportable_dec c : Decision (reportable c).
Proof. unfold reportable. apply _. Defined.

#[global] Instance ignored_dec c : Decision (ignored c).
Proof. unfold ignored. apply _. Defined.

(** ** Strings *)

(** Every character of [s] satisfies [p]. *)
Fixpoint string_forallb (p : ascii -> bool) (s : string) : bool :=
  match s with
  | EmptyString => true
  | String c rest => p c && string_forallb p rest
  end.

(** What one character of a title contributes to the anchor: a space gives a
    hyphen, an upper-case letter its lower-case form, a lower-case letter, a
    digit, an underscore or a hyphen itself, and anything else nothing. *)
Definition anchor_char (c : ascii) : string :=
  if Ascii.eqb c " " then "-"
  else if Js.is_upper c then String (ascii_of_nat (nat_of_ascii c + 32)) ""
  else if Js.is_lower c || Js.is_digit c || Ascii.eqb c "_" || Ascii.eqb c "-"
       then String c ""
  else "".

Fixpoint anchor_of (s : string) : string :=
  match s with
  | EmptyString => EmptyString
  | String c rest => anchor_char c +:+ anchor_of rest
  end.

(** The text between the quotes of a span the cleanup rewrites: one or more
    letters, spaces, periods, colons or exclamation marks. *)
Definition quoted_name (inner : string) : Prop :=
  inner ≠ "" ∧ string_forallb name_char inner = true.

(** A quoted span starts at the first character of [s]. *)
Definition starts_with_quoted (s : string) : Prop :=
  ∃ inner rest, quoted_name inner ∧ s = "'" +:+ inner +:+ "'" +:+ rest.

(** [Cleaned message out]: [out] is [message] with the quoted spans, found
    from left to right and not overlapping, wrapped in backticks, and every
    other character kept. *)
Inductive Cleaned : string → string → Prop :=
| Cleaned_end : Cleaned "" ""
| Cleaned_span inner rest out :
    quoted_name inner → Cleaned rest out →
    Cleaned ("'" +:+ inner +:+ "'" +:+ rest) ("`" +:+ inner +:+ "`" +:+ out)
| Cleaned_char c rest out :
    ¬ starts_with_quoted (String c rest) → Cleaned rest out →
    Cleaned (String c rest) (String c out).

(** ** Paths and the index *)

(** A segment holds no dot. *)
Definition no_dot (seg : string) : Prop :=
  string_forallb (fun c => negb (Ascii.eqb c ".")) seg = true.

(** The dotted paths of the prefixes of a path, longest first, from its
    segments in reverse order. *)
Fixpoint prefixes_of (rparts : list string) : list string :=
  match rparts with
  | [] => []
  | seg :: rest => Js.join_dot (reverse (seg :: rest)) :: prefixes_of rest
  end.

(** The path itself, then each ancestor: every entry is the one before it
    without its last dotted segment. *)
Definition ancestor_paths (path : string) : list string :=
  prefixes_of (reverse (Js.split_dot path)).

(** The first segment of a path: the name of the type it lies in. *)
Definition root_segment (path : string) : string :=
  default EmptyString (head (Js.split_dot path)).

(** The read of [p] in the index gives nothing the walk stops at. *)
Definition falsy_read (pathToPreview : gmap string string) (p : string) : Prop :=
  Js.truthy (readPathToPreview pathToPreview p) = false.

(** [v] is the truthy value read for the first entry of
    [ancestor_paths path] whose read is truthy. *)
Definition walk_finds (pathToPreview : gmap string string)
    (path : string) (v : Js.value) : Prop :=
  ∃ i p, ancestor_paths path !! i = Some p ∧
         readPathToPreview pathToPreview p = v ∧ Js.truthy v = true ∧
         ∀ j q, j < i → ancestor_paths path !! j = Some q →
                falsy_read pathToPreview q.

(** No entry of [ancestor_paths path] has a truthy read. *)
Definition walk_finds_nothing (pathToPreview : gmap string string)
    (path : string) : Prop :=
  ∀ q, q ∈ ancestor_paths path → falsy_read pathToPreview q.

(** The loop seen as a scan of the paths it tests, in order. *)
Fixpoint scan_paths (idx : gmap string string) (paths : list string)
    (title : Js.value) : Js.value :=
  match paths with
  | [] => title
  | p :: ps =>
      if Js.truthy title then title
      else scan_paths idx ps (readPathToPreview idx p)
  end.

(** The inner [forEach] of the index construction, for one preview. *)
Definition insertPreview (m : gmap string string) (preview : Preview.t) :=
  foldl (fun m path => <[path := Preview.title preview]> m) m (Preview.toggled_on preview).

(** The value of [previewTitle] when the loop ends, for [change]. *)
Definition previewTitleOf (pathToPreview : gmap string string) (change : Change.t)
    : Js.value :=
  ancestorLoop pathToPreview (Js.split_dot (Change.path change)) Js.Null.

(** The test [if (previewTitle)] fails for [change]. *)
Definition in_schema idx (change : Change.t) : Prop :=
  Js.truthy (previewTitleOf idx change) = false.

(** The test [if (previewTitle)] succeeds for [change], and [key] is the
    property key its [previewTitle] gives. *)
Definition in_bucket idx (key : string) (change : Change.t) : Prop :=
  Js.truthy (previewTitleOf idx change) = true ∧
  Js.toPropertyKey (previewTitleOf idx change) = key.

(** [changesByPreview[previewTitle]] is an inherited member for [change]:
    its [previewTitle] is truthy and names a member of [Object.prototype]. *)
Definition hits_member idx (change : Change.t) : Prop :=
  Js.truthy (previewTitleOf idx change) = true ∧
  Js.inherits (Js.toPropertyKey (previewTitleOf idx change)) = true.

#[global] Instance in_schema_dec idx c : Decision (in_schema idx c).
Proof. unfold in_schema. apply _. Defined.

#[global] Instance in_bucket_dec idx k c : Decision (in_bucket idx k c).
Proof. unfold in_bucket. apply _. Defined.

#[global] Instance hits_member_dec idx c : Decision (hits_member idx c).
Proof. unfold hits_member. apply _. Defined.

(** Every bucket is stored under the key its title gives, and no bucket is
    stored under the name of a member of [Object.prototype]. *)
Definition keyed (o : JsObject.t PreviewChanges.t) : Prop :=
  ∀ k b, JsObject.get k o = Some b →
         Js.toPropertyKey (PreviewChanges.title b) = k ∧ Js.inherits k = false.

(** All the changes held by the buckets. *)
Definition bucket_changes (o : JsObject.t PreviewChanges.t) : list Change.t :=
  concat (PreviewChanges.changes <$> JsObject.values o).

(** ** The date tag *)

(** [n], padded to two characters, has two digits and reads back as [n]. *)
Definition two_digit_form (n : N) : Prop :=
  String.length (padStart 2 "0" (pretty n)) = 2 ∧
  JsObject.digits_value (padStart 2 "0" (pretty n)) 0 = Some n.

#[global] Instance two_digit_form_dec n : Decision (two_digit_form n).
Proof. unfold two_digit_form. apply _. Defined.

(** * Facts about strings *)

Lemma string_app_cons c (a b : string) : String c a +:+ b = String c (a +:+ b).
Proof. reflexivity. Qed.

Lemma string_app_assoc (a b c : string) : a +:+ b +:+ c = (a +:+ b) +:+ c.
Proof.
  induction a as [|x a IH]; [done|]. rewrite !string_app_cons. by f_equal.
Qed.

Lemma string_length_app (a b : string) :
  String.length (a +:+ b) = String.length a + String.length b.
Proof. induction a as [|c a IH]; simpl; [done|]. by rewrite IH. Qed.

Lemma string_forallb_app p (a b : string) :
  string_forallb p (a +:+ b) = string_forallb p a && string_forallb p b.
Proof. induction a as [|c a IH]; simpl; [done|]. by rewrite IH, andb_assoc. Qed.

Lemma substring_all (s : string) : substring 0 (String.length s) s = s.
Proof. induction s as [|c s IH]; simpl; [done|]. by rewrite IH. Qed.

Lemma substring_skip (p s : string) k :
  substring (String.length p) k (p +:+ s) = substring 0 k s.
Proof. induction p as [|c p IH]; simpl; [done|]. exact IH. Qed.

Lemma substring_split (s : string) m :
  m <= String.length s ->
  s = substring 0 m s +:+ substring m (String.length s - m) s.
Proof.
  revert m. induction s as [|c s IH]; intros m Hm; simpl in *.
  - by destruct m.
  - destruct m as [|m]; simpl.
    + by rewrite substring_all.
    + change (String c s =
              String c (substring 0 m s +:+ substring m (String.length s - m) s)).
      f_equal. apply IH. lia.
Qed.

Lemma get_app_l (a b : string) i :
  i < String.length a → String.get i (a +:+ b) = String.get i a.
Proof.
  revert i. induction a as [|c a IH]; intros i Hi; simpl in *; [lia|].
  destruct i; simpl; [done|]. apply IH. lia.
Qed.

Lemma get_app_r (a b : string) i :
  String.get (String.length a + i) (a +:+ b) = String.get i b.
Proof. induction a as [|c a IH]; simpl; done. Qed.

Lemma endsWith_spec (s suffix : string) :
  Js.endsWith s suffix = true ↔ ∃ p, s = p +:+ suffix.
Proof.
  unfold Js.endsWith. rewrite andb_true_iff, Nat.leb_le, String.eqb_eq. split.
  - intros [Hle Heq]. exists (substring 0 (String.length s - String.length suffix) s).
    rewrite <- Heq at 2.
    rewrite (substring_split s (String.length s - String.length suffix)) at 1 by lia.
    do 2 f_equal. lia.
  - intros [p ->]. rewrite string_length_app. split; [lia|].
    replace (String.length p + String.length suffix - String.length suffix)
      with (String.length p) by lia.
    by rewrite substring_skip, substring_all.
Qed.

(** * The classifier *)

Lemma classifyChange_cases acc c :
  (reportable c ∧ classifyChange acc c = Ok (acc ++ [c])) ∨
  (¬ reportable c ∧ ignored c ∧ classifyChange acc c = Ok acc) ∨
  (unknown_kind c ∧
   classifyChange acc c = Throw (ThrownString unknown_type_text (Change.type c))).
Proof.
  unfold classifyChange, includes, unknown_kind.
  destruct (decide (reportable c)) as [Hr|Hr].
  - left. split; [done|]. by rewrite bool_decide_eq_true_2.
  - right. rewrite (bool_decide_eq_false_2 _ Hr).
    destruct (decide (ignored c)) as [Hi|Hi].
    + left. by rewrite bool_decide_eq_true_2.
    + right. by rewrite (bool_decide_eq_false_2 _ Hi).
Qed.

Lemma forEachChange_known changes acc :
  Forall (fun c => reportable c ∨ ignored c) changes ->
  forEachChange changes acc = Ok (acc ++ filter reportable changes).
Proof.
  intros Hall. revert acc.
  induction Hall as [|c changes Hc _ IH]; intros acc; simpl.
  - by rewrite app_nil_r.
  - destruct (classifyChange_cases acc c) as [[Hr ->]|[(Hr & Hi & ->)|[[Hr Hi] _]]].
    + simpl. rewrite IH, filter_cons_True by done. by rewrite <- app_assoc.
    + simpl. rewrite IH, filter_cons_False by done. done.
    + tauto.
Qed.

Lemma classifier_keeps_all changes :
  Forall (fun c => reportable c ∨ ignored c) changes →
  classifyChanges changes = Ok (filter reportable changes).
Proof. intros H. unfold classifyChanges. by rewrite forEachChange_known. Qed.

Lemma forEachChange_throw changes acc e :
  forEachChange changes acc = Throw e ↔
  ∃ before c after,
    changes = before ++ c :: after ∧
    Forall (fun c' => reportable c' ∨ ignored c') before ∧
    unknown_kind c ∧
    e = ThrownString unknown_type_text (Change.type c).
Proof.
  revert acc. induction changes as [|c changes IH]; intros acc; simpl.
  - split; [discriminate|]. intros (before & c & after & Heq & _).
    by destruct before.
  - destruct (classifyChange_cases acc c) as [[Hr ->]|[(Hr & Hi & ->)|[Hu ->]]]; simpl.
    1,2: rewrite IH; split.
    1,3: intros (before & c' & after & -> & Hb & Hu & ->);
         exists (c :: before), c', after; split_and!; auto.
    1,2: intros (before & c' & after & Heq & Hb & Hu & ->);
         destruct before as [|b before]; simplify_eq/=;
         [destruct Hu; tauto| inversion_clear Hb; eauto 10].
    split.
    + intros [= <-]. exists [], c, changes. split_and!; auto.
    + intros (before & c' & after & Heq & Hb & Hu' & ->).
      destruct before as [|b before]; simplify_eq/=; [done|].
      inversion_clear Hb. destruct Hu. tauto.
Qed.

(** C2: when every record of the diff has a kind listed in [CHANGES_TO_REPORT]
    or in [CHANGES_TO_IGNORE], the classifier returns exactly the records
    whose kind is in [CHANGES_TO_REPORT], in their original order and
    unchanged. *)
Theorem classifier_output changes :
  (∀ c, c ∈ changes → reportable c ∨ ignored c) →
  classifyChanges changes = Ok (filter reportable changes).
Proof.
  intros H. unfold classifyChanges.
  rewrite forEachChange_known; [done|]. by apply Forall_forall.
Qed.

Lemma classifier_output_witness :
  let added := {| Change.type := ChangeType.FieldAdded; Change.path := "Query.bar";
                  Change.message := "Field 'bar' was added to object type 'Query'" |} in
  let described := {| Change.type := ChangeType.FieldDescriptionChanged;
                      Change.path := "Query.baz";
                      Change.message := "Field 'Query.baz' description changed" |} in
  let removed := {| Change.type := ChangeType.TypeRemoved; Change.path := "Foo";
                    Change.message := "Type 'Foo' was removed" |} in
  classifyChanges [added; described; removed] = Ok [added; removed].
Proof.
  intros added described removed.
  refine (eq_trans (classifier_output [added; described; removed] _) _).
  - intros c Hc. apply (bool_decide_unpack _). revert c Hc.
    apply Forall_forall. repeat constructor; vm_compute; exact I.
  - vm_compute. reflexivity.
Defined.

(** C3: classification throws exactly when the diff holds a record whose kind
    is in neither list, and the exception is the unknown-kind error for the
    first such record; a record whose kind is in one of the lists never makes
    the loop body throw; and the exception ends [createChangelogEntry]. *)
Theorem classifier_unknown_kind changes :
  (∀ e, classifyChanges changes = Throw e ↔
        ∃ before c after,
          changes = before ++ c :: after ∧
          Forall (fun c' => reportable c' ∨ ignored c') before ∧
          unknown_kind c ∧
          e = ThrownString unknown_type_text (Change.type c)) ∧
  ((∃ c, c ∈ changes ∧ unknown_kind c) ↔ ∃ e, classifyChanges changes = Throw e) ∧
  (∀ acc c, unknown_kind c ↔
     classifyChange acc c = Throw (ThrownString unknown_type_text (Change.type c))) ∧
  (∀ acc c e, classifyChange acc c = Throw e → unknown_kind c) ∧
  (∀ (Schema : Type) (loadSchema : string → option Schema)
     (diff : Schema → Schema → list Change.t)
     oldSchemaString newSchemaString previews oldSchema newSchema e,
     loadSchema oldSchemaString = Some oldSchema →
     loadSchema newSchemaString = Some newSchema →
     diff oldSchema newSchema = changes →
     classifyChanges changes = Throw e →
     createChangelogEntry loadSchema diff oldSchemaString newSchemaString previews
       = Throw e).
Proof.
  split_and!.
  - intros e. apply forEachChange_throw.
  - split.
    + intros (c & Hin & Hu).
      destruct (classifyChanges changes) as [out|e] eqn:Hc; [|eauto].
      exfalso. unfold classifyChanges in Hc.
      assert (Hall : ¬ Forall (fun c' => reportable c' ∨ ignored c') changes).
      { rewrite Forall_forall. intros H. destruct Hu. destruct (H c Hin); tauto. }
      apply Hall. clear -Hc. revert Hc. generalize (@nil Change.t) as acc.
      induction changes as [|c changes IH]; intros acc; simpl; [constructor|].
      destruct (classifyChange_cases acc c) as [[Hr ->]|[(Hr & Hi & ->)|[Hu ->]]]; simpl;
        [| |discriminate]; intros H; constructor; eauto.
    + intros [e He]. apply forEachChange_throw in He
        as (before & c & after & -> & _ & Hu & _).
      exists c. split; [|done]. set_solver.
  - intros acc c.
    destruct (classifyChange_cases acc c) as [[Hr ->]|[(Hr & Hi & ->)|[Hu ->]]];
      unfold unknown_kind; split; try done; tauto.
  - intros acc c e.
    destruct (classifyChange_cases acc c) as [[Hr ->]|[(Hr & Hi & ->)|[Hu ->]]]; done.
  - intros Schema loadSchema diff old new previews oldSchema newSchema e
      Hold Hnew Hdiff Hthrow.
    unfold createChangelogEntry, awaitLoadSchema.
    rewrite Hold, Hnew. simpl. by rewrite Hdiff, Hthrow.
Qed.

(** * The formatters *)

(** C7: the two literal renames; any other title that does not end in
    ["preview"] (compared case-sensitively) gets [" preview"] appended, and
    any other title that does is returned unchanged. *)
Theorem cleanPreviewTitle_cases (title : string) :
  (title = "UpdateRefsPreview" → cleanPreviewTitle title = "Update refs preview") ∧
  (title = "MergeInfoPreview" → cleanPreviewTitle title = "Merge info preview") ∧
  (title ≠ "UpdateRefsPreview" → title ≠ "MergeInfoPreview" →
   (¬ ∃ p, title = p +:+ "preview") →
   cleanPreviewTitle title = title +:+ " preview") ∧
  (title ≠ "UpdateRefsPreview" → title ≠ "MergeInfoPreview" →
   (∃ p, title = p +:+ "preview") →
   cleanPreviewTitle title = title) ∧
  cleanPreviewTitle "UpdateRefsPreview" = "Update refs preview" ∧
  cleanPreviewTitle "FooPreview" = "FooPreview preview".
Proof.
  split_and!; try reflexivity.
  - by intros ->.
  - by intros ->.
  - intros H1 H2 Hno. unfold cleanPreviewTitle.
    apply String.eqb_neq in H1, H2. rewrite H1, H2.
    destruct (Js.endsWith title "preview") eqn:He; [|done].
    apply endsWith_spec in He. contradiction.
  - intros H1 H2 Hyes. unfold cleanPreviewTitle.
    apply String.eqb_neq in H1, H2. rewrite H1, H2.
    apply endsWith_spec in Hyes. by rewrite Hyes.
Qed.

Lemma anchor_char_pipeline c :
  Js.replace_chars (fun c => negb (Js.is_word c || Ascii.eqb c "-")) ""
    (Js.replace_chars (fun c => Ascii.eqb c " ") "-"
       (String (Js.lower_char c) "")) = anchor_char c.
Proof. ascii_cases c; reflexivity. Qed.

Lemma replace_chars_app m r (a b : string) :
  Js.replace_chars m r (a +:+ b) = Js.replace_chars m r a +:+ Js.replace_chars m r b.
Proof.
  induction a as [|c a IH]; [done|].
  change (String c a +:+ b) with (String c (a +:+ b)).
  simpl. destruct (m c); rewrite IH; [|done].
  by rewrite string_app_assoc.
Qed.

Lemma anchor_char_alphabet c :
  string_forallb (fun x => Js.is_lower x || Js.is_digit x || Ascii.eqb x "_" || Ascii.eqb x "-")
    (anchor_char c) = true.
Proof. ascii_cases c; reflexivity. Qed.

(** C8: the anchor is the title lower-cased, with every space turned into a
    hyphen and every character other than a word character or a hyphen
    removed, in that order: character by character it is [anchor_of], it
    holds only lower-case letters, digits, underscores and hyphens, and
    ["Update refs preview"] gives ["update-refs-preview"]. *)
Theorem previewAnchor_spec (previewTitle : string) :
  previewAnchor previewTitle = anchor_of previewTitle ∧
  string_forallb
    (fun x => Js.is_lower x || Js.is_digit x || Ascii.eqb x "_" || Ascii.eqb x "-")
    (previewAnchor previewTitle) = true ∧
  previewAnchor "Update refs preview" = "update-refs-preview".
Proof.
  assert (Heq : ∀ s, previewAnchor s = anchor_of s).
  { induction s as [|c s IH]; [done|].
    unfold previewAnchor in *.
    change (Js.toLowerCase (String c s))
      with (String (Js.lower_char c) "" +:+ Js.toLowerCase s).
    rewrite !replace_chars_app, anchor_char_pipeline, IH. done. }
  split_and!; [apply Heq| |reflexivity].
  rewrite Heq. induction previewTitle as [|c s IH]; [done|].
  simpl. by rewrite string_forallb_app, anchor_char_alphabet, IH.
Qed.

Lemma span_name_spec s run after :
  span_name s = (run, after) →
  s = run +:+ after ∧ string_forallb name_char run = true.
Proof.
  revert run after. induction s as [|c s IH]; intros run after; simpl.
  - by intros [= <- <-].
  - destruct (name_char c) eqn:Hc.
    + destruct (span_name s) as [run' after'] eqn:Hs. intros [= <- <-].
      destruct (IH _ _ eq_refl) as [-> Hall]. simpl. by rewrite Hc, Hall.
    + by intros [= <- <-].
Qed.

Lemma span_name_quote (inner rest : string) :
  string_forallb name_char inner = true →
  span_name (inner +:+ "'" +:+ rest) = (inner, String "'" rest).
Proof.
  induction inner as [|c inner IH]; [done|].
  rewrite string_app_cons. simpl.
  intros [Hc Hall]%andb_true_iff. by rewrite Hc, IH.
Qed.

Lemma match_quoted_spec s inner after :
  match_quoted s = Some (inner, after) ↔
  quoted_name inner ∧ s = "'" +:+ inner +:+ "'" +:+ after.
Proof.
  split.
  - destruct s as [|q rest]; simpl; [discriminate|].
    ascii_cases q; try discriminate.
    destruct (span_name rest) as [run aft] eqn:Hs.
    apply span_name_spec in Hs as [-> Hall].
    destruct run as [|c run]; [discriminate|].
    destruct aft as [|q aft]; [discriminate|].
    ascii_cases q; try discriminate.
    intros [= <- <-]. split; [by split|done].
  - intros [[Hne Hall] ->].
    change (match_quoted ("'" +:+ inner +:+ "'" +:+ after))
      with (match span_name (inner +:+ "'" +:+ after) with
            | (String c run, String "'" after) => Some (String c run, after)
            | _ => None
            end).
    rewrite span_name_quote by done. by destruct inner.
Qed.

Lemma match_quoted_none s :
  match_quoted s = None ↔ ¬ starts_with_quoted s.
Proof.
  split.
  - intros Hn (inner & rest & Hq & ->).
    assert (match_quoted ("'" +:+ inner +:+ "'" +:+ rest) = Some (inner, rest))
      as Hs by by apply match_quoted_spec.
    congruence.
  - intros Hno. destruct (match_quoted s) as [[inner after]|] eqn:Hm; [|done].
    apply match_quoted_spec in Hm as [Hq ->]. destruct Hno. by exists inner, after.
Qed.

Lemma match_quoted_length s inner after :
  match_quoted s = Some (inner, after) →
  String.length after < String.length s.
Proof.
  intros [_ ->]%match_quoted_spec. rewrite !string_length_app. simpl. lia.
Qed.

Lemma replace_quoted_step c rest :
  replace_quoted (String c rest) =
  match match_quoted (String c rest) with
  | Some (inner, after) => "`" +:+ inner +:+ "`" +:+ replace_quoted after
  | None => String c (replace_quoted rest)
  end.
Proof.
  simp replace_quoted. unfold inspect.
  generalize (@eq_refl _ (match_quoted (String c rest))).
  generalize (match_quoted (String c rest)) at 2 4 5.
  by intros [[inner after]|] e.
Qed.

Lemma replace_quoted_Cleaned message : Cleaned message (replace_quoted message).
Proof.
  remember (String.length message) as n eqn:Hn. revert message Hn.
  induction n as [n IH] using lt_wf_ind; intros message ->.
  destruct message as [|c rest]; [simp replace_quoted; constructor|].
  rewrite replace_quoted_step.
  destruct (match_quoted (String c rest)) as [[inner after]|] eqn:Hm.
  - pose proof (match_quoted_length _ _ _ Hm) as Hlen.
    apply match_quoted_spec in Hm as [Hq ->].
    apply Cleaned_span; [done|]. by eapply IH.
  - apply Cleaned_char; [by apply match_quoted_none|].
    eapply IH; [|done]. simpl. lia.
Qed.

Lemma Cleaned_replace_quoted message out :
  Cleaned message out → replace_quoted message = out.
Proof.
  induction 1 as [|inner rest out Hq _ IH|c rest out Hno _ IH].
  - by simp replace_quoted.
  - change ("'" +:+ inner +:+ "'" +:+ rest)
      with (String "'" (inner +:+ "'" +:+ rest)).
    rewrite replace_quoted_step.
    change (String "'" (inner +:+ "'" +:+ rest))
      with ("'" +:+ inner +:+ "'" +:+ rest).
    assert (match_quoted ("'" +:+ inner +:+ "'" +:+ rest) = Some (inner, rest))
      as -> by by apply match_quoted_spec.
    by rewrite IH.
  - rewrite replace_quoted_step.
    apply match_quoted_none in Hno. by rewrite Hno, IH.
Qed.

Lemma Cleaned_length message out :
  Cleaned message out → String.length out = String.length message.
Proof.
  induction 1 as [|inner rest out Hq _ IH|c rest out Hno _ IH]; [done| |].
  - rewrite !string_length_app, IH. done.
  - simpl. by rewrite IH.
Qed.

Lemma Cleaned_positions message out :
  Cleaned message out →
  ∀ i, String.get i out = String.get i message ∨
       (String.get i message = Some "'"%char ∧ String.get i out = Some "`"%char).
Proof.
  induction 1 as [|inner rest out Hq _ IH|c rest out Hno _ IH]; intros i; [by left| |].
  - destruct i as [|i]; [by right|].
    change ("'" +:+ inner +:+ "'" +:+ rest)
      with (String "'" (inner +:+ "'" +:+ rest)).
    change ("`" +:+ inner +:+ "`" +:+ out)
      with (String "`" (inner +:+ "`" +:+ out)).
    simpl String.get.
    destruct (decide (i < String.length inner)) as [Hi|Hi].
    { left. by rewrite !get_app_l. }
    replace i with (String.length inner + (i - String.length inner)) by lia.
    rewrite !get_app_r.
    destruct (i - String.length inner) as [|j]; [by right|].
    apply IH.
  - destruct i as [|i]; [by left|]. apply IH.
Qed.

(** C6: the cleanup does not rewrite every quoted span of letters, spaces,
    periods, colons and exclamation marks and leave the rest alone.  The scan
    goes from left to right, and after a quoted name it cannot rewrite (here
    one with an underscore) it pairs that name's closing quote with the
    opening quote of the next one: in ['my_field' was changed to 'Foo'] the
    text between the two names is wrapped in backticks, the quote closing
    [my_field] is changed, and the span ['Foo'] keeps its closing quote.  The
    two messages of the specification come out as it says. *)
Theorem message_cleanup_pairs_across_names :
  replace_quoted "Type 'my_field' was changed to 'Foo'"
    = "Type 'my_field` was changed to `Foo'" ∧
  replace_quoted "Field 'User.created_at' changed type from 'String' to 'DateTime'"
    = "Field 'User.created_at` changed type from `String` to `DateTime'" ∧
  cleanMessagesFromChanges
    [ {| Change.type := ChangeType.TypeKindChanged; Change.path := "my_field";
         Change.message := "Type 'my_field' was changed to 'Foo'" |} ]
    = ["Type 'my_field` was changed to `Foo'"] ∧
  replace_quoted "The field 'name' was removed." = "The field `name` was removed." ∧
  replace_quoted "The field 'my_field' was removed." = "The field 'my_field' was removed.".
Proof.
  split_and!; reflexivity.
Qed.

(** X22: the cleanup only ever turns single quotes into backticks: its
    result is the one the left-to-right scan [Cleaned] describes and no other,
    it has the length of the message, and at every position it holds the
    character of the message, or a backtick where the message has a single
    quote. *)
Theorem message_cleanup_only_quotes message :
  (∀ out, Cleaned message out ↔ replace_quoted message = out) ∧
  String.length (replace_quoted message) = String.length message ∧
  (∀ i, String.get i (replace_quoted message) = String.get i message ∨
        (String.get i message = Some "'"%char ∧
         String.get i (replace_quoted message) = Some "`"%char)).
Proof.
  split_and!.
  - intros out. split; [apply Cleaned_replace_quoted|].
    intros <-. apply replace_quoted_Cleaned.
  - apply Cleaned_length, replace_quoted_Cleaned.
  - apply Cleaned_positions, replace_quoted_Cleaned.
Qed.


(** * The index and the walk over ancestors *)

Lemma split_dot_nonempty s : Js.split_dot s ≠ [].
Proof.
  destruct s as [|c s]; simpl; [done|].
  destruct (Ascii.eqb c "."); [done|]. by destruct (Js.split_dot s).
Qed.

Lemma join_dot_cons seg seg' rest :
  Js.join_dot (seg :: seg' :: rest) = seg +:+ "." +:+ Js.join_dot (seg' :: rest).
Proof. reflexivity. Qed.

Lemma join_split s : Js.join_dot (Js.split_dot s) = s.
Proof.
  induction s as [|c s IH]; [done|]. simpl.
  destruct (Ascii.eqb_spec c ".") as [->|Hc].
  - pose proof (split_dot_nonempty s) as Hne.
    destruct (Js.split_dot s) as [|seg segs]; [done|].
    rewrite join_dot_cons, IH. done.
  - pose proof (split_dot_nonempty s) as Hne.
    destruct (Js.split_dot s) as [|seg segs]; [done|].
    rewrite <- IH. destruct segs; [done|].
    rewrite !join_dot_cons. done.
Qed.

Lemma split_dot_no_dot s : Forall no_dot (Js.split_dot s).
Proof.
  induction s as [|c s IH]; simpl; [by repeat constructor|].
  destruct (Ascii.eqb c ".") eqn:Hc; [by constructor|].
  destruct (Js.split_dot s) as [|seg segs]; [repeat constructor; unfold no_dot; simpl; by rewrite Hc|].
  inversion_clear IH. constructor; [|done].
  unfold no_dot in *. simpl. by rewrite Hc.
Qed.

Lemma join_dot_snoc init seg :
  init ≠ [] → Js.join_dot (init ++ [seg]) = Js.join_dot init +:+ "." +:+ seg.
Proof.
  induction init as [|a init IH]; [done|]. intros _.
  destruct init as [|b init]; [done|].
  rewrite <- !app_comm_cons in *. rewrite !join_dot_cons, IH by done.
  by rewrite !string_app_assoc.
Qed.

Lemma pop_snoc {A} (init : list A) x : Js.pop (init ++ [x]) = init.
Proof. apply removelast_last. Qed.

Lemma ancestorLoop_step idx part parts title :
  ancestorLoop idx (part :: parts) title =
  if Js.truthy title then title
  else ancestorLoop idx (Js.pop (part :: parts))
         (readPathToPreview idx (Js.join_dot (part :: parts))).
Proof. simp ancestorLoop. by destruct (Js.truthy title). Qed.

Lemma ancestorLoop_scan idx parts title :
  ancestorLoop idx parts title = scan_paths idx (prefixes_of (reverse parts)) title.
Proof.
  revert title. induction parts as [|seg init IH] using rev_ind; intros title.
  - by simp ancestorLoop.
  - destruct (init ++ [seg]) as [|part parts'] eqn:Heq; [by destruct init|].
    rewrite ancestorLoop_step, <- Heq, pop_snoc.
    rewrite reverse_snoc. simpl. rewrite <- reverse_snoc, reverse_involutive.
    destruct (Js.truthy title); [done|]. apply IH.
Qed.

Lemma truthy_Str t : Js.truthy (Js.Str t) = true ↔ t ≠ "".
Proof. destruct t; simpl; split; done. Qed.

Lemma read_own idx p t :
  idx !! p = Some t → readPathToPreview idx p = Js.Str t.
Proof. unfold readPathToPreview. by intros ->. Qed.

Lemma read_plain idx p :
  idx !! p = None → Js.inherits p = false → readPathToPreview idx p = Js.Undefined.
Proof. unfold readPathToPreview, Js.getProperty. by intros -> ->. Qed.

Lemma read_member idx p :
  idx !! p = None → Js.inherits p = true → readPathToPreview idx p = Js.Member p.
Proof. unfold readPathToPreview, Js.getProperty. by intros -> ->. Qed.

Lemma scan_paths_truthy idx paths title :
  Js.truthy title = true → scan_paths idx paths title = title.
Proof. intros H. destruct paths; simpl; [done|]. by rewrite H. Qed.

Lemma scan_paths_spec idx paths title0 v :
  Js.truthy title0 = false → Js.truthy v = true →
  (scan_paths idx paths title0 = v ↔
   ∃ i p, paths !! i = Some p ∧ readPathToPreview idx p = v ∧
          ∀ j q, j < i → paths !! j = Some q → falsy_read idx q).
Proof.
  intros H0 Hv. revert title0 H0.
  induction paths as [|p ps IH]; intros title0 H0; simpl.
  - split.
    + intros ->. congruence.
    + by intros (i & p & ? & _).
  - rewrite H0. destruct (Js.truthy (readPathToPreview idx p)) eqn:Hp.
    + rewrite scan_paths_truthy by done. split.
      * intros Hl. exists 0, p. split_and!; [done..|]. intros; lia.
      * intros (i & q & Hi & Hq & Hbefore). destruct i as [|i]; [by simplify_eq/=|].
        specialize (Hbefore 0 p ltac:(lia) eq_refl).
        unfold falsy_read in Hbefore. congruence.
    + rewrite IH by done. split.
      * intros (i & q & Hi & Hq & Hbefore). exists (S i), q. split_and!; [done..|].
        intros [|j] q' Hj Hq'; simplify_eq/=; [done|].
        eapply Hbefore; [|done]. lia.
      * intros (i & q & Hi & Hq & Hbefore). destruct i as [|i]; simplify_eq/=.
        { congruence. }
        exists i, q. split_and!; [done..|]. intros j q' Hj Hq'.
        apply (Hbefore (S j) q'); [lia|done].
Qed.

Lemma scan_paths_falsy idx paths title0 :
  Js.truthy title0 = false →
  (Js.truthy (scan_paths idx paths title0) = false ↔
   ∀ q, q ∈ paths → falsy_read idx q).
Proof.
  revert title0. induction paths as [|p ps IH]; intros title0 H0; simpl.
  - split; [|done]. intros _ q Hq. by apply elem_of_nil in Hq.
  - rewrite H0. destruct (Js.truthy (readPathToPreview idx p)) eqn:Hp.
    + rewrite scan_paths_truthy by done. rewrite Hp. split; [done|].
      intros H. specialize (H p ltac:(left)). unfold falsy_read in H. congruence.
    + rewrite IH by done. split.
      * intros H q [->|Hq]%elem_of_cons; [done|auto].
      * intros H q Hq. apply H. by right.
Qed.

Lemma prefixes_of_head parts :
  parts ≠ [] → prefixes_of (reverse parts) !! 0 = Some (Js.join_dot parts).
Proof.
  intros Hne. destruct (reverse parts) as [|seg rest] eqn:Hr.
  - apply (f_equal reverse) in Hr. rewrite reverse_involutive in Hr. done.
  - simpl. by rewrite <- Hr, reverse_involutive.
Qed.

Lemma prefixes_of_next rparts i p q :
  prefixes_of rparts !! i = Some p →
  prefixes_of rparts !! S i = Some q →
  ∃ seg, seg ∈ rparts ∧ p = q +:+ "." +:+ seg.
Proof.
  revert i. induction rparts as [|seg rest IH]; intros i; [done|].
  destruct i as [|i].
  - simpl. intros [= <-] Hq. exists seg. split; [by left|].
    destruct rest as [|seg' rest']; [done|]. simpl in Hq. injection Hq as <-.
    rewrite (reverse_cons _ seg). apply join_dot_snoc.
    intros Hnil. apply (f_equal length) in Hnil.
    by rewrite length_reverse in Hnil.
  - simpl. intros Hp Hq. destruct (IH i Hp Hq) as (s & Hs & ->).
    exists s. split; [by right|done].
Qed.

Lemma prefixes_of_last rparts p :
  last (prefixes_of rparts) = Some p → last rparts = Some p.
Proof.
  induction rparts as [|seg rest IH]; [done|].
  destruct rest as [|seg' rest']; [done|]. exact IH.
Qed.

Lemma ancestor_paths_walk path :
  ancestor_paths path !! 0 = Some path ∧
  (∀ i p q, ancestor_paths path !! i = Some p →
            ancestor_paths path !! S i = Some q →
            ∃ seg, no_dot seg ∧ p = q +:+ "." +:+ seg) ∧
  (∀ p, last (ancestor_paths path) = Some p → no_dot p).
Proof.
  unfold ancestor_paths. pose proof (split_dot_no_dot path) as Hnd.
  rewrite Forall_forall in Hnd. split_and!.
  - rewrite prefixes_of_head by apply split_dot_nonempty. by rewrite join_split.
  - intros i p q Hp Hq. destruct (prefixes_of_next _ _ _ _ Hp Hq) as (seg & Hin & ->).
    exists seg. split; [|done]. apply Hnd. by apply elem_of_reverse.
  - intros p Hp%prefixes_of_last. apply Hnd.
    apply last_Some in Hp as [l' Hp]. apply elem_of_reverse. rewrite Hp. set_solver.
Qed.

Lemma insert_paths_lookup (m : gmap string string) paths t x :
  foldl (fun m path => <[path := t]> m) m paths !! x =
  if decide (x ∈ paths) then Some t else m !! x.
Proof.
  revert m. induction paths as [|p ps IH]; intros m; cbn [foldl].
  - rewrite decide_False; [done|]. apply not_elem_of_nil.
  - rewrite IH. destruct (decide (x ∈ ps)) as [Hin|Hin].
    + rewrite decide_True; [done|]. by right.
    + destruct (decide (x = p)) as [->|Hne].
      * rewrite decide_True by by left. by rewrite lookup_insert_eq.
      * rewrite decide_False; [by rewrite lookup_insert_ne|].
        by intros [->|?]%elem_of_cons.
Qed.

Lemma build_from_untouched (m : gmap string string) previews x :
  (∀ q, q ∈ previews → x ∉ Preview.toggled_on q) →
  foldl insertPreview m previews !! x = m !! x.
Proof.
  revert m. induction previews as [|p ps IH]; intros m Hno; simpl; [done|].
  rewrite IH by set_solver. unfold insertPreview. rewrite insert_paths_lookup.
  rewrite decide_False; [done|]. apply Hno. by left.
Qed.

Lemma buildPathToPreview_last before p after x :
  x ∈ Preview.toggled_on p →
  (∀ q, q ∈ after → x ∉ Preview.toggled_on q) →
  buildPathToPreview (before ++ p :: after) !! x = Some (Preview.title p).
Proof.
  intros Hin Hno. unfold buildPathToPreview.
  change (foldl insertPreview ∅ (before ++ p :: after) !! x = Some (Preview.title p)).
  rewrite foldl_app. simpl. rewrite build_from_untouched by done.
  unfold insertPreview at 1. rewrite insert_paths_lookup. by rewrite decide_True.
Qed.

Lemma buildPathToPreview_none previews x :
  (∀ q, q ∈ previews → x ∉ Preview.toggled_on q) →
  buildPathToPreview previews !! x = None.
Proof.
  intros Hno. unfold buildPathToPreview.
  change (foldl insertPreview ∅ previews !! x = None).
  by rewrite build_from_untouched.
Qed.

Lemma ancestorLoop_full_path idx path t :
  idx !! path = Some t → t ≠ "" →
  ancestorLoop idx (Js.split_dot path) Js.Null = Js.Str t.
Proof.
  intros Hl Ht. rewrite ancestorLoop_scan.
  apply scan_paths_spec; [done|by apply truthy_Str|].
  exists 0, path. split_and!; [|by apply read_own|intros; lia].
  apply ancestor_paths_walk.
Qed.

(** C5: when two previews list the same path, the one loaded later (no preview
    after it listing the path) is the one the index keeps for that path, and
    its title, when not empty, is what the walk finds for a change at that
    path. *)
Theorem later_preview_wins before p1 between p2 after path :
  path ∈ Preview.toggled_on p1 →
  path ∈ Preview.toggled_on p2 →
  (∀ q, q ∈ after → path ∉ Preview.toggled_on q) →
  let pathToPreview := buildPathToPreview (before ++ p1 :: between ++ p2 :: after) in
  pathToPreview !! path = Some (Preview.title p2) ∧
  (Preview.title p2 ≠ "" →
   ancestorLoop pathToPreview (Js.split_dot path) Js.Null
     = Js.Str (Preview.title p2)).
Proof.
  intros _ H2 Hafter pathToPreview.
  assert (pathToPreview !! path = Some (Preview.title p2)) as Hl.
  { unfold pathToPreview.
    replace (before ++ p1 :: between ++ p2 :: after)
      with ((before ++ p1 :: between) ++ p2 :: after) by by rewrite <- app_assoc.
    by apply buildPathToPreview_last. }
  split; [done|]. intros Ht. by apply ancestorLoop_full_path.
Qed.

Lemma later_preview_wins_witness :
  buildPathToPreview
    ([] ++ {| Preview.title := "FirstPreview"; Preview.toggled_on := ["Query.foo"] |}
        :: [] ++ {| Preview.title := "SecondPreview";
                    Preview.toggled_on := ["Mutation.bar"; "Query.foo"] |} :: [])
    !! "Query.foo" = Some "SecondPreview".
Proof.
  refine (proj1 (later_preview_wins [] _ [] _ [] "Query.foo" _ _ _)).
  - apply (bool_decide_unpack _). vm_compute. exact I.
  - apply (bool_decide_unpack _). vm_compute. exact I.
  - intros q Hq. by apply elem_of_nil in Hq.
Defined.

(** * Segmentation *)

Section JsObjectFacts.
Context {V : Type}.
Implicit Types (o : JsObject.t V) (k : string) (v : V).

Lemma get_set k k' v o :
  JsObject.get k' (JsObject.set k v o) =
  if decide (k' = k) then Some v else JsObject.get k' o.
Proof.
  induction o as [|[k0 v0] o IH]; simpl.
  - destruct (String.eqb_spec k' k); by case_decide.
  - destruct (String.eqb_spec k k0) as [->|Hk]; simpl.
    + destruct (String.eqb_spec k' k0); by case_decide.
    + destruct (String.eqb_spec k' k0) as [->|Hk'].
      * by rewrite decide_False by done.
      * exact IH.
Qed.

Lemma get_None_keys k o : JsObject.get k o = None ↔ k ∉ o.*1.
Proof.
  induction o as [|[k0 v0] o IH]; simpl.
  - split; [intros _; apply not_elem_of_nil|done].
  - destruct (String.eqb_spec k k0) as [->|Hk].
    + split; [done|]. intros []. by left.
    + rewrite IH. split.
      * by intros ? [?|?]%elem_of_cons.
      * intros H ?. apply H. by right.
Qed.

Lemma set_keys k v o :
  (JsObject.set k v o).*1 =
  match JsObject.get k o with Some _ => o.*1 | None => o.*1 ++ [k] end.
Proof.
  induction o as [|[k0 v0] o IH]; [done|].
  cbn [JsObject.set JsObject.get].
  destruct (String.eqb_spec k k0) as [->|Hk]; [done|].
  rewrite !fmap_cons, IH. by destruct (JsObject.get k o).
Qed.

Lemma set_NoDup k v o : NoDup o.*1 → NoDup (JsObject.set k v o).*1.
Proof.
  intros Hnd. rewrite set_keys.
  destruct (JsObject.get k o) eqn:Hg; [done|].
  apply NoDup_app. split_and!; [done| |apply NoDup_singleton].
  intros x Hx [->|[]%elem_of_nil]%elem_of_cons. by apply get_None_keys in Hg.
Qed.
End JsObjectFacts.

Lemma set_bucket_changes t b o c :
  PreviewChanges.changes b =
    match JsObject.get t o with
    | Some b0 => PreviewChanges.changes b0
    | None => []
    end ++ [c] →
  bucket_changes (JsObject.set t b o) ≡ₚ bucket_changes o ++ [c].
Proof.
  unfold bucket_changes, JsObject.values.
  induction o as [|[k0 v0] o IH]; simpl.
  - intros ->. by rewrite app_nil_r.
  - destruct (String.eqb_spec t k0) as [->|Hk]; simpl.
    + intros ->. rewrite <- !app_assoc. f_equiv. apply Permutation_app_comm.
    + intros Hb. rewrite IH by done. by rewrite app_assoc.
Qed.

(** The string of an inherited member is not the name of a member. *)
Lemma member_key_not_inherited name :
  Js.inherits (Js.toPropertyKey (Js.Member name)) = false.
Proof.
  apply bool_decide_eq_false. unfold Js.toPropertyKey.
  destruct (String.eqb name "__proto__").
  - intros H. by apply (bool_decide_pack _) in H.
  - intros H. unfold Js.objectPrototypeMembers in H.
    repeat (apply elem_of_cons in H as [H|H]; [discriminate H|]).
    by apply elem_of_nil in H.
Qed.

Lemma hits_member_Str idx c :
  hits_member idx c ↔
  ∃ t, previewTitleOf idx c = Js.Str t ∧ t ≠ "" ∧ Js.inherits t = true.
Proof.
  unfold hits_member. split.
  - intros [Htruthy Hin]. destruct (previewTitleOf idx c) as [| |t|name];
      [done|done| |by rewrite member_key_not_inherited in Hin].
    exists t. split_and!; [done|by apply truthy_Str|done].
  - intros (t & -> & Ht & Hin). split; [by apply truthy_Str|done].
Qed.

(** What one run of the loop body does. *)
Lemma segmentChange_step idx s o c :
  keyed o →
  (in_schema idx c ∧ segmentChange idx (s, o) c = Ok (s ++ [c], o)) ∨
  (hits_member idx c ∧
   segmentChange idx (s, o) c = Throw (TypeErrorOfUndefined "push")) ∨
  (∃ k, in_bucket idx k c ∧ Js.inherits k = false ∧
        segmentChange idx (s, o) c =
        Ok (s, JsObject.set k
                 {| PreviewChanges.title :=
                      match JsObject.get k o with
                      | Some b => PreviewChanges.title b
                      | None => previewTitleOf idx c
                      end;
                    PreviewChanges.changes :=
                      match JsObject.get k o with
                      | Some b => PreviewChanges.changes b
                      | None => []
                      end ++ [c] |} o)).
Proof.
  intros Hkeyed. unfold in_schema, hits_member, in_bucket, segmentChange.
  fold (previewTitleOf idx c).
  destruct (Js.truthy (previewTitleOf idx c)) eqn:Htruthy; [|by left].
  right. unfold Js.getProperty.
  destruct (JsObject.get (Js.toPropertyKey (previewTitleOf idx c)) o) as [b|] eqn:Hget.
  - right. exists (Js.toPropertyKey (previewTitleOf idx c)).
    rewrite Hget. split_and!; [done|done|by apply (Hkeyed _ b)|done].
  - destruct (Js.inherits (Js.toPropertyKey (previewTitleOf idx c))) eqn:Hin.
    + by left.
    + right. exists (Js.toPropertyKey (previewTitleOf idx c)).
      rewrite Hget. by split_and!.
Qed.

Lemma in_schema_or_bucket idx c :
  (in_schema idx c ∧ ∀ k, ¬ in_bucket idx k c) ∨
  (∃ k, in_bucket idx k c ∧ ¬ in_schema idx c ∧ ∀ k', in_bucket idx k' c → k' = k).
Proof.
  unfold in_schema, in_bucket.
  destruct (Js.truthy (previewTitleOf idx c)) eqn:Htruthy.
  - right. eexists. split_and!; [done..|]. by intros k' [_ <-].
  - left. split; [done|]. by intros k [? _].
Qed.

Lemma in_schema_not_in_bucket idx c k :
  in_schema idx c → ¬ in_bucket idx k c.
Proof. unfold in_schema, in_bucket. intros -> [? _]. done. Qed.

Lemma hits_member_in_bucket idx c k :
  in_bucket idx k c → hits_member idx c ↔ Js.inherits k = true.
Proof. unfold in_bucket, hits_member. intros [Ht <-]. tauto. Qed.

Lemma forEachSegment_throw idx changes s o :
  keyed o → Exists (hits_member idx) changes →
  forEachSegment idx changes (s, o) = Throw (TypeErrorOfUndefined "push").
Proof.
  intros Hkeyed Hex. revert s o Hkeyed.
  induction changes as [|c changes IH]; intros s o Hkeyed; [by inversion Hex|].
  cbn [forEachSegment].
  destruct (segmentChange_step idx s o c Hkeyed)
    as [[Hs ->]|[[Hhit ->]|(k & Hb & Hin & ->)]]; simpl; [|done|].
  - apply IH; [|done]. inversion_clear Hex as [? ? Hhit|]; [|done].
    destruct Hhit as [Htruthy _]. unfold in_schema in Hs. congruence.
  - apply IH.
    + inversion_clear Hex as [? ? Hhit|]; [|done].
      apply (hits_member_in_bucket _ _ _ Hb) in Hhit. congruence.
    + intros k' b'. rewrite get_set. case_decide as Heq; [|apply Hkeyed].
      intros [= <-]. subst k'. simpl. split; [|done].
      destruct (JsObject.get k o) as [b0|] eqn:Hget; [by apply (Hkeyed _ b0)|].
      by destruct Hb.
Qed.

Lemma segment_fold idx changes s o :
  keyed o → NoDup o.*1 →
  Forall (fun c => ¬ hits_member idx c) changes →
  ∃ s' o',
    forEachSegment idx changes (s, o) = Ok (s', o') ∧
    s' = s ++ filter (in_schema idx) changes ∧
    keyed o' ∧ NoDup o'.*1 ∧
    (∀ k, JsObject.get k o' =
          match JsObject.get k o with
          | Some b =>
              Some {| PreviewChanges.title := PreviewChanges.title b;
                      PreviewChanges.changes :=
                        PreviewChanges.changes b ++ filter (in_bucket idx k) changes |}
          | None =>
              match filter (in_bucket idx k) changes with
              | [] => None
              | c0 :: cs =>
                  Some {| PreviewChanges.title := previewTitleOf idx c0;
                          PreviewChanges.changes := c0 :: cs |}
              end
          end) ∧
    bucket_changes o' ≡ₚ
      bucket_changes o ++ filter (fun c => ¬ in_schema idx c) changes.
Proof.
  intros Hkeyed Hnd Hall. revert s o Hkeyed Hnd.
  induction Hall as [|c changes Hc _ IH]; intros s o Hkeyed Hnd.
  - exists s, o. split_and!; try done.
    + by rewrite app_nil_r.
    + intros k. destruct (JsObject.get k o) as [[bt bc]|] eqn:Hg; [|done].
      simpl. by rewrite app_nil_r.
    + by rewrite app_nil_r.
  - cbn [forEachSegment].
    destruct (segmentChange_step idx s o c Hkeyed)
      as [[Hs ->]|[[Hhit _]|(k & Hb & Hin & ->)]]; simpl; [|done|].
    + destruct (IH (s ++ [c]) o Hkeyed Hnd)
        as (s' & o' & -> & -> & Hk' & Hnd' & Hget & Hperm).
      do 2 eexists. split_and!; try done.
      * rewrite filter_cons_True by done. by rewrite <- app_assoc.
      * intros k. rewrite Hget.
        by rewrite (filter_cons_False _ c) by by apply in_schema_not_in_bucket.
      * rewrite Hperm. by rewrite (filter_cons_False _ c) by tauto.
    + set (b := {| PreviewChanges.title := _ |}).
      assert (keyed (JsObject.set k b o)) as Hk1.
      { intros k' b'. rewrite get_set. case_decide as Heq; [|apply Hkeyed].
        intros [= <-]. subst k'. unfold b. simpl. split; [|done].
        destruct (JsObject.get k o) as [b0|] eqn:Hg; [by apply (Hkeyed _ b0)|].
        by destruct Hb. }
      assert (¬ in_schema idx c) as Hns.
      { intros Hs. by apply (in_schema_not_in_bucket _ _ k) in Hs. }
      destruct (IH s (JsObject.set k b o) Hk1 (set_NoDup _ _ _ Hnd))
        as (s' & o' & -> & -> & Hk' & Hnd' & Hget & Hperm).
      do 2 eexists. split_and!; try done.
      * by rewrite filter_cons_False by done.
      * intros k'. rewrite Hget, get_set. case_decide as Heq.
        -- subst k'. rewrite (filter_cons_True _ c) by done. unfold b. simpl.
           destruct (JsObject.get k o) as [b0|] eqn:Hg; simpl.
           ++ by rewrite <- app_assoc.
           ++ done.
        -- rewrite (filter_cons_False _ c); [done|].
           intros [_ Hk2]. destruct Hb as [_ Hk3]. congruence.
      * rewrite Hperm, set_bucket_changes by done.
        rewrite (filter_cons_True _ c) by done. by rewrite <- app_assoc.
Qed.

(** The two outcomes of [segmentPreviewChanges]. *)
Lemma segmentPreviewChanges_cases changes previews :
  let idx := buildPathToPreview previews in
  (Exists (hits_member idx) changes ∧
   segmentPreviewChanges changes previews = Throw (TypeErrorOfUndefined "push")) ∨
  (Forall (fun c => ¬ hits_member idx c) changes ∧
   ∃ r, segmentPreviewChanges changes previews = Ok r ∧
        schemaChangesToReport r = filter (in_schema idx) changes ∧
        (∀ k, JsObject.get k (previewChangesToReport r) =
              match filter (in_bucket idx k) changes with
              | [] => None
              | c0 :: cs =>
                  Some {| PreviewChanges.title := previewTitleOf idx c0;
                          PreviewChanges.changes := c0 :: cs |}
              end) ∧
        keyed (previewChangesToReport r) ∧
        NoDup (previewChangesToReport r).*1 ∧
        bucket_changes (previewChangesToReport r) ≡ₚ
          filter (fun c => ¬ in_schema idx c) changes).
Proof.
  intros idx. unfold segmentPreviewChanges. fold idx.
  assert (Hkeyed : keyed JsObject.empty) by done.
  destruct (decide (Forall (fun c => ¬ hits_member idx c) changes)) as [Hall|Hex].
  - right. split; [done|].
    destruct (segment_fold idx changes [] JsObject.empty Hkeyed (NoDup_nil_2) Hall)
      as (s' & o' & -> & -> & Hk & Hnd & Hget & Hperm).
    simpl. eexists. split_and!; done.
  - left. apply not_Forall_Exists in Hex; [|apply _].
    assert (Exists (hits_member idx) changes) as Hex'.
    { eapply Exists_impl; [done|]. intros c Hc. simpl in Hc.
      by destruct (decide (hits_member idx c)). }
    split; [done|]. by rewrite forEachSegment_throw.
Qed.

Lemma segmentPreviewChanges_Ok changes previews r :
  segmentPreviewChanges changes previews = Ok r →
  let idx := buildPathToPreview previews in
  Forall (fun c => ¬ hits_member idx c) changes ∧
  schemaChangesToReport r = filter (in_schema idx) changes ∧
  (∀ k, JsObject.get k (previewChangesToReport r) =
        match filter (in_bucket idx k) changes with
        | [] => None
        | c0 :: cs =>
            Some {| PreviewChanges.title := previewTitleOf idx c0;
                    PreviewChanges.changes := c0 :: cs |}
        end) ∧
  keyed (previewChangesToReport r) ∧
  NoDup (previewChangesToReport r).*1 ∧
  bucket_changes (previewChangesToReport r) ≡ₚ
    filter (fun c => ¬ in_schema idx c) changes.
Proof.
  intros Hok idx.
  destruct (segmentPreviewChanges_cases changes previews)
    as [[_ Hthrow]|(Hall & r' & Hr & H)]; [congruence|].
  rewrite Hok in Hr. injection Hr as <-. by split.
Qed.

Lemma in_bucket_walk idx c k :
  in_bucket idx k c ↔
  ∃ v, walk_finds idx (Change.path c) v ∧ Js.toPropertyKey v = k.
Proof.
  unfold in_bucket, previewTitleOf, walk_finds. rewrite ancestorLoop_scan.
  fold (ancestor_paths (Change.path c)). split.
  - intros [Htruthy Hk]. eexists. split; [|exact Hk].
    pose proof (@eq_refl _ (scan_paths idx (ancestor_paths (Change.path c)) Js.Null)) as Hs.
    apply scan_paths_spec in Hs as (i & p & Hi & Hp & Hb); [|done..].
    by exists i, p.
  - intros (v & (i & p & Hi & Hp & Hv & Hb) & Hk).
    assert (scan_paths idx (ancestor_paths (Change.path c)) Js.Null = v) as ->.
    { apply scan_paths_spec; [done..|]. by exists i, p. }
    done.
Qed.

Lemma in_schema_walk idx c :
  in_schema idx c ↔ walk_finds_nothing idx (Change.path c).
Proof.
  unfold in_schema, previewTitleOf, walk_finds_nothing. rewrite ancestorLoop_scan.
  by apply scan_paths_falsy.
Qed.

Lemma hits_member_walk idx c :
  hits_member idx c ↔
  ∃ t, walk_finds idx (Change.path c) (Js.Str t) ∧ Js.inherits t = true.
Proof.
  rewrite hits_member_Str. unfold previewTitleOf, walk_finds.
  rewrite ancestorLoop_scan. fold (ancestor_paths (Change.path c)). split.
  - intros (t & Hs & Ht & Hin). exists t. split; [|done].
    apply scan_paths_spec in Hs as (i & p & Hi & Hp & Hb);
      [|done|by apply truthy_Str].
    exists i, p. split_and!; [done..|by apply truthy_Str|done].
  - intros (t & (i & p & Hi & Hp & Hv & Hb) & Hin). exists t.
    split_and!; [|by apply truthy_Str|done].
    apply scan_paths_spec; [done..|]. by exists i, p.
Qed.

(** C1: the walk is misled by what a plain object inherits and by an empty
    title.  With no preview at all a change in a type named [constructor]
    is put in a preview bucket, keyed by the text of the function [Object],
    where the specification puts it in the general bucket; in the
    specification's own example a preview titled [constructor] makes the call
    throw instead of attributing the change at ["Query.foo.bar"]; and a
    preview with an empty title that lists ["Query.foo"] is passed over. *)
Theorem attribution_misled_by_object_members type message :
  let change path := {| Change.type := type; Change.path := path;
                        Change.message := message |} in
  segmentPreviewChanges [change "constructor"] [] =
    Ok {| schemaChangesToReport := [];
          previewChangesToReport :=
            [("function Object() { [native code] }",
              {| PreviewChanges.title := Js.Member "constructor";
                 PreviewChanges.changes := [change "constructor"] |})] |} ∧
  segmentPreviewChanges [change "Query.foo.bar"]
    [ {| Preview.title := "constructor"; Preview.toggled_on := ["Query.foo"] |} ] =
    Throw (TypeErrorOfUndefined "push") ∧
  segmentPreviewChanges [change "Query.foo.bar"]
    [ {| Preview.title := ""; Preview.toggled_on := ["Query.foo"] |} ] =
    Ok {| schemaChangesToReport := [change "Query.foo.bar"];
          previewChangesToReport := [] |}.
Proof. intros change. split_and!; reflexivity. Qed.

(** C9: a preview whose title names a member of [Object.prototype] makes the
    segmentation throw as soon as a change is attributed to it: no bucket is
    returned, neither for that change nor for the changes before it. *)
Theorem segmentation_aborts_on_member_title type message :
  let change path := {| Change.type := type; Change.path := path;
                        Change.message := message |} in
  let previews :=
    [ {| Preview.title := "constructor"; Preview.toggled_on := ["Query.foo"] |} ] in
  segmentPreviewChanges [change "Query.bar"; change "Query.foo"] previews =
    Throw (TypeErrorOfUndefined "push") ∧
  ∀ segments,
    segmentPreviewChanges [change "Query.bar"; change "Query.foo"] previews
      ≠ Ok segments.
Proof.
  intros change previews.
  assert (segmentPreviewChanges [change "Query.bar"; change "Query.foo"] previews =
          Throw (TypeErrorOfUndefined "push")) as Hthrow by reflexivity.
  split; [done|]. intros segments. by rewrite Hthrow.
Qed.
(** * The entry builder *)

Section EntryFacts.
Context {Schema : Type}.
Variable loadSchema : string -> option Schema.
Variable diff : Schema -> Schema -> list Change.t.

Lemma createChangelogEntry_loaded oldSchemaString newSchemaString previews
    oldSchema newSchema changesToReport segments :
  loadSchema oldSchemaString = Some oldSchema →
  loadSchema newSchemaString = Some newSchema →
  classifyChanges (diff oldSchema newSchema) = Ok changesToReport →
  segmentPreviewChanges changesToReport previews = Ok segments →
  createChangelogEntry loadSchema diff oldSchemaString newSchemaString previews =
  match schemaChangesToReport segments with
  | [] => Ok None
  | _ :: _ =>
      Ok (Some (newChangelogEntry (schemaChangesToReport segments)
                                  (previewChangesToReport segments)))
  end.
Proof.
  intros Hold Hnew Hclass Hseg. unfold createChangelogEntry, awaitLoadSchema.
  rewrite Hold, Hnew. simpl. rewrite Hclass. simpl. rewrite Hseg. simpl.
  destruct (schemaChangesToReport _); simpl.
  - by destruct (JsObject.get "length" _).
  - done.
Qed.

Lemma createChangelogEntry_segment_throw oldSchemaString newSchemaString previews
    oldSchema newSchema changesToReport e :
  loadSchema oldSchemaString = Some oldSchema →
  loadSchema newSchemaString = Some newSchema →
  classifyChanges (diff oldSchema newSchema) = Ok changesToReport →
  segmentPreviewChanges changesToReport previews = Throw e →
  createChangelogEntry loadSchema diff oldSchemaString newSchemaString previews =
  Throw e.
Proof.
  intros Hold Hnew Hclass Hseg. unfold createChangelogEntry, awaitLoadSchema.
  rewrite Hold, Hnew. simpl. rewrite Hclass. simpl. by rewrite Hseg.
Qed.

Lemma createChangelogEntry_Some_inv oldSchemaString newSchemaString previews entry :
  createChangelogEntry loadSchema diff oldSchemaString newSchemaString previews
    = Ok (Some entry) →
  ∃ oldSchema newSchema changesToReport segments,
    loadSchema oldSchemaString = Some oldSchema ∧
    loadSchema newSchemaString = Some newSchema ∧
    classifyChanges (diff oldSchema newSchema) = Ok changesToReport ∧
    segmentPreviewChanges changesToReport previews = Ok segments ∧
    schemaChangesToReport segments ≠ [] ∧
    entry = newChangelogEntry (schemaChangesToReport segments)
                              (previewChangesToReport segments).
Proof.
  intros Hcreate.
  destruct (loadSchema oldSchemaString) as [oldSchema|] eqn:Hold;
    [|by unfold createChangelogEntry, awaitLoadSchema in Hcreate; rewrite Hold in Hcreate].
  destruct (loadSchema newSchemaString) as [newSchema|] eqn:Hnew;
    [|by unfold createChangelogEntry, awaitLoadSchema in Hcreate;
         rewrite Hold, Hnew in Hcreate].
  destruct (classifyChanges (diff oldSchema newSchema)) as [changesToReport|e] eqn:Hclass;
    [|by unfold createChangelogEntry, awaitLoadSchema in Hcreate;
         rewrite Hold, Hnew in Hcreate; simpl in Hcreate; rewrite Hclass in Hcreate].
  destruct (segmentPreviewChanges changesToReport previews) as [segments|e] eqn:Hseg;
    [|by rewrite (createChangelogEntry_segment_throw _ _ _ _ _ _ _ Hold Hnew Hclass Hseg)
         in Hcreate].
  rewrite (createChangelogEntry_loaded _ _ _ _ _ _ _ Hold Hnew Hclass Hseg) in Hcreate.
  exists oldSchema, newSchema, changesToReport, segments. split_and!; [done..| |].
  - by destruct (schemaChangesToReport segments).
  - destruct (schemaChangesToReport segments); [done|]. congruence.
Qed.

(** C4: a reportable change that a preview covers leaves the general
    bucket empty and the preview bucket not, and the result is [null]. *)
Theorem preview_only_changes_give_null oldSchemaString newSchemaString
    oldSchema newSchema type message :
  let change := {| Change.type := type; Change.path := "Query.foo";
                   Change.message := message |} in
  let previews := [ {| Preview.title := "FooPreview";
                       Preview.toggled_on := ["Query.foo"] |} ] in
  loadSchema oldSchemaString = Some oldSchema →
  loadSchema newSchemaString = Some newSchema →
  diff oldSchema newSchema = [change] →
  type ∈ CHANGES_TO_REPORT →
  segmentPreviewChanges [change] previews =
    Ok {| schemaChangesToReport := [];
          previewChangesToReport :=
            [("FooPreview", {| PreviewChanges.title := Js.Str "FooPreview";
                               PreviewChanges.changes := [change] |})] |} ∧
  createChangelogEntry loadSchema diff oldSchemaString newSchemaString previews
    = Ok None.
Proof.
  intros change previews Hold Hnew Hdiff Htype.
  assert (Hseg : segmentPreviewChanges [change] previews =
            Ok {| schemaChangesToReport := [];
                  previewChangesToReport :=
                    [("FooPreview", {| PreviewChanges.title := Js.Str "FooPreview";
                                       PreviewChanges.changes := [change] |})] |})
    by reflexivity.
  split; [done|].
  assert (Hclass : classifyChanges (diff oldSchema newSchema) = Ok [change]).
  { rewrite Hdiff, classifier_keeps_all; [by rewrite filter_cons_True|].
    constructor; [by left|constructor]. }
  by rewrite (createChangelogEntry_loaded _ _ _ _ _ _ _ Hold Hnew Hclass Hseg).
Qed.

(** C10: when every reportable change is attributed to a preview no entry is
    returned at all, although the entry the script would build from those
    buckets has the one schema section with an empty list: the case the
    specification singles out is cut off by the test on
    [previewChangesToReport.length]. *)
Theorem all_preview_changes_give_no_entry oldSchemaString newSchemaString
    oldSchema newSchema message message' :
  let added := {| Change.type := ChangeType.FieldAdded; Change.path := "Query.foo";
                  Change.message := message |} in
  let removed := {| Change.type := ChangeType.FieldRemoved;
                    Change.path := "Mutation.bar.baz";
                    Change.message := message' |} in
  let previews :=
    [ {| Preview.title := "FooPreview"; Preview.toggled_on := ["Query.foo"] |};
      {| Preview.title := "BarPreview"; Preview.toggled_on := ["Mutation.bar"] |} ] in
  let buckets :=
    [("FooPreview", {| PreviewChanges.title := Js.Str "FooPreview";
                       PreviewChanges.changes := [added] |});
     ("BarPreview", {| PreviewChanges.title := Js.Str "BarPreview";
                       PreviewChanges.changes := [removed] |})] in
  loadSchema oldSchemaString = Some oldSchema →
  loadSchema newSchemaString = Some newSchema →
  diff oldSchema newSchema = [added; removed] →
  classifyChanges [added; removed] = Ok [added; removed] ∧
  segmentPreviewChanges [added; removed] previews =
    Ok {| schemaChangesToReport := []; previewChangesToReport := buckets |} ∧
  createChangelogEntry loadSchema diff oldSchemaString newSchemaString previews
    = Ok None ∧
  ChangelogEntry.schemaChanges (newChangelogEntry [] buckets) =
    [ {| ChangelogSection.title := "The GraphQL schema includes these changes:";
         ChangelogSection.changes := [] |} ].
Proof.
  intros added removed previews buckets Hold Hnew Hdiff.
  assert (Hclass : classifyChanges [added; removed] = Ok [added; removed])
    by (vm_compute; reflexivity).
  assert (Hseg : segmentPreviewChanges [added; removed] previews =
            Ok {| schemaChangesToReport := []; previewChangesToReport := buckets |})
    by reflexivity.
  split_and!; [done|done| |reflexivity].
  assert (Hclass' : classifyChanges (diff oldSchema newSchema) = Ok [added; removed])
    by by rewrite Hdiff.
  by rewrite (createChangelogEntry_loaded _ _ _ _ _ _ _ Hold Hnew Hclass' Hseg).
Qed.

(** X23: every entry that is returned has exactly one schema section, with
    the fixed title, and that section is never empty: it holds the cleaned
    messages of the general bucket, which held at least one change. *)
Theorem entry_has_one_schema_section oldSchemaString newSchemaString previews entry :
  createChangelogEntry loadSchema diff oldSchemaString newSchemaString previews
    = Ok (Some entry) →
  ∃ oldSchema newSchema changesToReport segments,
    loadSchema oldSchemaString = Some oldSchema ∧
    loadSchema newSchemaString = Some newSchema ∧
    classifyChanges (diff oldSchema newSchema) = Ok changesToReport ∧
    segmentPreviewChanges changesToReport previews = Ok segments ∧
    schemaChangesToReport segments ≠ [] ∧
    ChangelogEntry.schemaChanges entry =
      [ {| ChangelogSection.title := "The GraphQL schema includes these changes:";
           ChangelogSection.changes :=
             cleanMessagesFromChanges (schemaChangesToReport segments) |} ] ∧
    cleanMessagesFromChanges (schemaChangesToReport segments) ≠ [].
Proof.
  intros Hcreate.
  apply createChangelogEntry_Some_inv in Hcreate
    as (oldSchema & newSchema & changesToReport & segments
        & Hold & Hnew & Hclass & Hseg & Hne & ->).
  exists oldSchema, newSchema, changesToReport, segments.
  split_and!; [done..|].
  unfold cleanMessagesFromChanges. by destruct (schemaChangesToReport segments).
Qed.
End EntryFacts.

Lemma preview_only_changes_give_null_witness :
  let change := {| Change.type := ChangeType.FieldAdded; Change.path := "Query.foo";
                   Change.message := "Field 'foo' was added to object type 'Query'" |} in
  createChangelogEntry (fun _ : string => Some tt) (fun _ _ : unit => [change])
    "type Query { bar: String }" "type Query { bar: String foo: String }"
    [ {| Preview.title := "FooPreview"; Preview.toggled_on := ["Query.foo"] |} ]
  = Ok None.
Proof.
  intros change.
  refine (proj2 (preview_only_changes_give_null (fun _ => Some tt) (fun _ _ => [change])
            _ _ tt tt ChangeType.FieldAdded _ _ _ _ _)).
  - reflexivity.
  - reflexivity.
  - reflexivity.
  - apply (bool_decide_unpack _). vm_compute. exact I.
Defined.

Lemma all_preview_changes_give_no_entry_witness :
  let added := {| Change.type := ChangeType.FieldAdded; Change.path := "Query.foo";
                  Change.message := "Field 'foo' was added to object type 'Query'" |} in
  let removed := {| Change.type := ChangeType.FieldRemoved;
                    Change.path := "Mutation.bar.baz";
                    Change.message := "Field 'baz' was removed from object type 'Bar'" |} in
  createChangelogEntry (fun _ : string => Some tt) (fun _ _ : unit => [added; removed])
    "old schema" "new schema"
    [ {| Preview.title := "FooPreview"; Preview.toggled_on := ["Query.foo"] |};
      {| Preview.title := "BarPreview"; Preview.toggled_on := ["Mutation.bar"] |} ]
  = Ok None.
Proof.
  intros added removed.
  refine (proj1 (proj2 (proj2 (all_preview_changes_give_no_entry
            (fun _ => Some tt) (fun _ _ => [added; removed])
            _ _ tt tt _ _ _ _ _)))); reflexivity.
Defined.

Lemma entry_has_one_schema_section_witness :
  let change := {| Change.type := ChangeType.FieldRemoved; Change.path := "Query.foo";
                   Change.message := "Field 'foo' was removed from object type 'Query'" |} in
  ChangelogEntry.schemaChanges (newChangelogEntry [change] []) =
    [ {| ChangelogSection.title := "The GraphQL schema includes these changes:";
         ChangelogSection.changes :=
           ["Field `foo` was removed from object type `Query`"] |} ].
Proof.
  intros change.
  destruct (entry_has_one_schema_section (fun _ : string => Some tt)
              (fun _ _ : unit => [change])
              "type Query { foo: String bar: Int }" "type Query { bar: Int }" []
              (newChangelogEntry [change] []))
    as (_ & _ & changesToReport & segments & _ & _ & Hclass & Hseg & _ & Hsection & _).
  - reflexivity.
  - injection Hclass as <-. injection Hseg as <-. exact Hsection.
Defined.

(** * Further properties of the string helpers *)

Lemma split_dot_app (p rest : string) :
  Js.split_dot (p +:+ "." +:+ rest) = Js.split_dot p ++ Js.split_dot rest.
Proof.
  induction p as [|c p IH]; [done|].
  rewrite string_app_cons. simpl. rewrite IH.
  destruct (Ascii.eqb c "."); [done|].
  pose proof (split_dot_nonempty p) as Hne.
  by destruct (Js.split_dot p).
Qed.

Lemma split_dot_segment seg : no_dot seg → Js.split_dot seg = [seg].
Proof.
  unfold no_dot. induction seg as [|c seg IH]; [done|]. simpl.
  intros [Hc Hseg]%andb_true_iff. apply negb_true_iff in Hc. rewrite Hc.
  by rewrite IH.
Qed.

(** X1: splitting a path at its dots and joining the segments with dots are
    inverse to each other: the walk's first test path is the change's path,
    and a non-empty list of dot-free segments is recovered from its join. *)
Theorem split_join_round_trip :
  (∀ path, Js.join_dot (Js.split_dot path) = path) ∧
  (∀ parts, parts ≠ [] → Forall no_dot parts →
            Js.split_dot (Js.join_dot parts) = parts).
Proof.
  split; [apply join_split|].
  induction parts as [|seg parts IH]; [done|]. intros _ Hall.
  inversion_clear Hall as [|? ? Hseg Hparts].
  destruct parts as [|seg' parts]; [by apply split_dot_segment|].
  rewrite join_dot_cons, split_dot_app, IH by done.
  by rewrite split_dot_segment.
Qed.

Lemma cleanPreviewTitle_fixed title :
  Js.endsWith title "preview" = true → cleanPreviewTitle title = title.
Proof.
  intros Hends. unfold cleanPreviewTitle.
  destruct (String.eqb_spec title "UpdateRefsPreview") as [->|_]; [done|].
  destruct (String.eqb_spec title "MergeInfoPreview") as [->|_]; [done|].
  by rewrite Hends.
Qed.

Lemma cleanPreviewTitle_ends title :
  Js.endsWith (cleanPreviewTitle title) "preview" = true.
Proof.
  unfold cleanPreviewTitle.
  destruct (String.eqb title "UpdateRefsPreview"); [done|].
  destruct (String.eqb title "MergeInfoPreview"); [done|].
  destruct (Js.endsWith title "preview") eqn:Hends; [done|]. simpl.
  apply endsWith_spec. exists (title +:+ " ").
  by rewrite <- string_app_assoc.
Qed.

(** X2: every cleaned preview title ends in ["preview"], and cleaning a cleaned
    title changes nothing. *)
Theorem cleanPreviewTitle_idempotent title :
  Js.endsWith (cleanPreviewTitle title) "preview" = true ∧
  cleanPreviewTitle (cleanPreviewTitle title) = cleanPreviewTitle title.
Proof.
  split; [apply cleanPreviewTitle_ends|].
  apply cleanPreviewTitle_fixed, cleanPreviewTitle_ends.
Qed.

Lemma anchor_of_app (a b : string) :
  anchor_of (a +:+ b) = anchor_of a +:+ anchor_of b.
Proof.
  induction a as [|c a IH]; [done|].
  rewrite string_app_cons. simpl. by rewrite IH, string_app_assoc.
Qed.

Lemma anchor_of_anchor_char c : anchor_of (anchor_char c) = anchor_char c.
Proof. ascii_cases c; reflexivity. Qed.

Lemma anchor_char_length c : String.length (anchor_char c) ≤ 1.
Proof. ascii_cases c; vm_compute; repeat constructor. Qed.

Lemma previewAnchor_anchor_of s : previewAnchor s = anchor_of s.
Proof.
  induction s as [|c s IH]; [done|]. unfold previewAnchor in *.
  change (Js.toLowerCase (String c s))
    with (String (Js.lower_char c) "" +:+ Js.toLowerCase s).
  by rewrite !replace_chars_app, anchor_char_pipeline, IH.
Qed.

(** X3: the anchor of an anchor is the anchor itself, the anchor of a
    concatenation is the concatenation of the anchors, and an anchor is never
    longer than its title. *)
Theorem previewAnchor_idempotent (a b : string) :
  previewAnchor (previewAnchor a) = previewAnchor a ∧
  previewAnchor (a +:+ b) = previewAnchor a +:+ previewAnchor b ∧
  String.length (previewAnchor a) ≤ String.length a.
Proof.
  rewrite !previewAnchor_anchor_of. split_and!.
  - induction a as [|c a IH]; [done|]. simpl.
    by rewrite anchor_of_app, anchor_of_anchor_char, IH.
  - apply anchor_of_app.
  - induction a as [|c a IH]; [done|]. simpl.
    rewrite string_length_app. pose proof (anchor_char_length c). lia.
Qed.

(** X4: the anchor of a cleaned preview title ends in ["preview"]: the link of a
    preview section always points at a fragment of that form. *)
Theorem previewAnchor_of_clean_title title :
  Js.endsWith (previewAnchor (cleanPreviewTitle title)) "preview" = true.
Proof.
  pose proof (cleanPreviewTitle_ends title) as [p Hp]%endsWith_spec.
  rewrite Hp, previewAnchor_anchor_of, anchor_of_app.
  apply endsWith_spec. by exists (anchor_of p).
Qed.

(** * Further properties of the message cleanup *)

Lemma replace_quoted_not_quote c rest :
  c ≠ "'"%char → replace_quoted (String c rest) = String c (replace_quoted rest).
Proof.
  intros Hc. rewrite replace_quoted_step.
  destruct (match_quoted (String c rest)) as [[inner after]|] eqn:Hm; [|done].
  apply match_quoted_spec in Hm as [_ Hm]. by injection Hm as ->.
Qed.

Lemma name_char_not_quote c : name_char c = true → c ≠ "'"%char.
Proof. by intros Hc ->. Qed.

Lemma replace_quoted_name_prefix (inner rest : string) :
  string_forallb name_char inner = true →
  replace_quoted (inner +:+ rest) = inner +:+ replace_quoted rest.
Proof.
  induction inner as [|c inner IH]; [done|]. simpl.
  intros [Hc Hall]%andb_true_iff. rewrite !string_app_cons.
  rewrite replace_quoted_not_quote by by apply name_char_not_quote.
  by rewrite IH.
Qed.

(** The run of name characters at the start of a message is the same before
    and after the cleanup, and a quote that follows it afterwards was there
    before. *)
Lemma span_name_replace_quoted s :
  (span_name (replace_quoted s)).1 = (span_name s).1 ∧
  (∀ tail', (span_name (replace_quoted s)).2 = String "'" tail' →
            ∃ tail, (span_name s).2 = String "'" tail).
Proof.
  induction s as [|c s [IHrun IHafter]]; [by simp replace_quoted|].
  destruct (name_char c) eqn:Hc.
  - rewrite replace_quoted_not_quote by by apply name_char_not_quote.
    simpl. rewrite Hc.
    destruct (span_name (replace_quoted s)) as [run2 after2].
    destruct (span_name s) as [run after]. simpl in *. by subst.
  - rewrite replace_quoted_step.
    destruct (match_quoted (String c s)) as [[inner after]|] eqn:Hm.
    + apply match_quoted_spec in Hm as [_ Hm].
      change ("'" +:+ inner +:+ "'" +:+ after)
        with (String "'" (inner +:+ "'" +:+ after)) in Hm.
      injection Hm as -> ->. split; [done|]. simpl. intros tail2. discriminate.
    + simpl. rewrite Hc. split; [done|]. simpl. intros tail2 [= -> _]. eauto.
Qed.

Lemma match_quoted_replace_quoted c rest :
  match_quoted (String c rest) = None →
  match_quoted (String c (replace_quoted rest)) = None.
Proof.
  destruct (span_name_replace_quoted rest) as [Hrun Hafter].
  unfold match_quoted. ascii_cases c; try done.
  destruct (span_name (replace_quoted rest)) as [run2 after2].
  destruct (span_name rest) as [run after]. simpl in *. subst run2.
  destruct run as [|x run]; [done|].
  destruct after2 as [|q after2]; [done|].
  ascii_cases q; try done.
  destruct (Hafter _ eq_refl) as [after0 ->]. discriminate.
Qed.

Lemma replace_quoted_twice message :
  replace_quoted (replace_quoted message) = replace_quoted message.
Proof.
  remember (String.length message) as n eqn:Hn. revert message Hn.
  induction n as [n IH] using lt_wf_ind; intros message ->.
  destruct message as [|c rest]; [by simp replace_quoted|].
  rewrite replace_quoted_step.
  destruct (match_quoted (String c rest)) as [[inner after]|] eqn:Hm.
  - pose proof (match_quoted_length _ _ _ Hm) as Hlen.
    apply match_quoted_spec in Hm as [[_ Hall] _].
    change ("`" +:+ inner +:+ "`" +:+ replace_quoted after)
      with (String "`" (inner +:+ String "`" (replace_quoted after))).
    rewrite replace_quoted_not_quote by done.
    rewrite replace_quoted_name_prefix by done.
    rewrite replace_quoted_not_quote by done.
    by rewrite (IH _ Hlen after eq_refl).
  - rewrite replace_quoted_step.
    rewrite (match_quoted_replace_quoted _ _ Hm).
    by rewrite (IH (String.length rest) ltac:(simpl; lia) rest eq_refl).
Qed.

(** X5: cleaning is idempotent: a cleaned message holds no quoted span any more,
    so cleaning it again returns it unchanged. *)
Theorem message_cleanup_idempotent message :
  replace_quoted (replace_quoted message) = replace_quoted message ∧
  Cleaned (replace_quoted message) (replace_quoted message).
Proof.
  split; [apply replace_quoted_twice|].
  rewrite <- replace_quoted_twice at 2. apply replace_quoted_Cleaned.
Qed.

(** X6: a message without a single quote is returned as it is. *)
Theorem message_without_quote_unchanged message :
  string_forallb (fun c => negb (Ascii.eqb c "'")) message = true →
  replace_quoted message = message.
Proof.
  induction message as [|c rest IH]; [by simp replace_quoted|]. simpl.
  intros [Hc Hrest]%andb_true_iff.
  apply negb_true_iff, Ascii.eqb_neq in Hc.
  by rewrite replace_quoted_not_quote, IH.
Qed.

Lemma message_without_quote_unchanged_witness :
  replace_quoted "Type `Foo` was removed" = "Type `Foo` was removed".
Proof. apply message_without_quote_unchanged. reflexivity. Defined.

(** * Further properties of the classifier *)

Lemma forEachChange_Ok changes acc out :
  forEachChange changes acc = Ok out →
  Forall (fun c => reportable c ∨ ignored c) changes ∧
  out = acc ++ filter reportable changes.
Proof.
  revert acc. induction changes as [|c changes IH]; intros acc; simpl.
  - intros [= <-]. by rewrite app_nil_r.
  - destruct (classifyChange_cases acc c) as [[Hr ->]|[(Hr & Hi & ->)|[Hu ->]]];
      simpl; [| |done].
    + intros [Hall ->]%IH. split; [constructor; auto|].
      by rewrite filter_cons_True, <- app_assoc.
    + intros [Hall ->]%IH. split; [constructor; auto|].
      by rewrite filter_cons_False.
Qed.

(** X7: the classifier returns a list exactly when every kind of the diff is in
    one of the two tables, and the list is then the reportable records in
    order; otherwise nothing is returned. *)
Theorem classifier_succeeds_iff changes out :
  classifyChanges changes = Ok out ↔
  (∀ c, c ∈ changes → reportable c ∨ ignored c) ∧ out = filter reportable changes.
Proof.
  unfold classifyChanges. rewrite <- Forall_forall. split.
  - by intros [Hall ->]%forEachChange_Ok.
  - intros [Hall ->]. by rewrite forEachChange_known.
Qed.

(** X8: no kind is listed twice, and none is listed in both tables: the order of
    the two [includes] tests does not matter, and the tables name fifty-two
    kinds. *)
Theorem kind_tables_disjoint :
  NoDup (CHANGES_TO_REPORT ++ CHANGES_TO_IGNORE) ∧
  length (CHANGES_TO_REPORT ++ CHANGES_TO_IGNORE) = 52 ∧
  (∀ c, reportable c → ¬ ignored c).
Proof.
  assert (Hnd : NoDup (CHANGES_TO_REPORT ++ CHANGES_TO_IGNORE)).
  { apply (bool_decide_unpack _). vm_compute. exact I. }
  split_and!; [done|reflexivity|].
  intros c Hr Hi. apply NoDup_app in Hnd as (_ & Hdisj & _).
  by apply (Hdisj (Change.type c)).
Qed.

(** * Further properties of the index *)

Lemma buildPathToPreview_snoc previews p :
  buildPathToPreview (previews ++ [p]) =
  insertPreview (buildPathToPreview previews) p.
Proof. unfold buildPathToPreview. by rewrite foldl_app. Qed.

(** X9: a path has no index entry exactly when no preview lists it, and an entry
    is always the title of a preview that lists the path. *)
Theorem index_lookup previews path :
  (buildPathToPreview previews !! path = None ↔
   ∀ p, p ∈ previews → path ∉ Preview.toggled_on p) ∧
  (∀ title, buildPathToPreview previews !! path = Some title →
            ∃ p, p ∈ previews ∧ path ∈ Preview.toggled_on p ∧
                 Preview.title p = title).
Proof.
  induction previews as [|p previews [IHnone IHsome]] using rev_ind.
  - split; [|done]. split; [|done]. intros _ p Hp. by apply elem_of_nil in Hp.
  - rewrite buildPathToPreview_snoc. unfold insertPreview.
    rewrite insert_paths_lookup. destruct (decide (path ∈ Preview.toggled_on p)) as [Hin|Hin].
    + split.
      * split; [done|]. intros Hno. destruct (Hno p); [|done].
        apply elem_of_app. right. by left.
      * intros title [= <-]. exists p. split_and!; [|done..].
        apply elem_of_app. right. by left.
    + split.
      * rewrite IHnone. split.
        -- intros Hno q [Hq|Hq%list_elem_of_singleton]%elem_of_app; [auto|by subst].
        -- intros Hno q Hq. apply Hno, elem_of_app. by left.
      * intros title (q & Hq & Hpath & Ht)%IHsome. exists q. split_and!; [|done..].
        apply elem_of_app. by left.
Qed.

(** * Further properties of the segmentation *)

Lemma segmentChange_schema idx s o c :
  in_schema idx c → segmentChange idx (s, o) c = Ok (s ++ [c], o).
Proof.
  unfold in_schema, segmentChange. fold (previewTitleOf idx c). by intros ->.
Qed.

Lemma forEachSegment_schema idx changes s o :
  (∀ c, c ∈ changes → in_schema idx c) →
  forEachSegment idx changes (s, o) = Ok (s ++ changes, o).
Proof.
  revert s. induction changes as [|c changes IH]; intros s Hall;
    cbn [forEachSegment].
  - by rewrite app_nil_r.
  - rewrite segmentChange_schema by (apply Hall; by left). simpl.
    rewrite IH by (intros c' Hc'; apply Hall; by right).
    by rewrite <- app_assoc.
Qed.

Lemma inherits_no_dot key : Js.inherits key = true → no_dot key.
Proof.
  intros Hin%bool_decide_eq_true. unfold Js.objectPrototypeMembers in Hin.
  repeat (apply elem_of_cons in Hin as [->|Hin]; [reflexivity|]).
  by apply elem_of_nil in Hin.
Qed.

Lemma dotted_not_inherited (q seg : string) :
  Js.inherits (q +:+ "." +:+ seg) = false.
Proof.
  destruct (Js.inherits (q +:+ "." +:+ seg)) eqn:Hin; [|done].
  apply inherits_no_dot in Hin. unfold no_dot in Hin.
  rewrite !string_forallb_app in Hin. simpl in Hin.
  by rewrite andb_false_r in Hin.
Qed.

(** Of the paths the walk tests only the last one, the root segment, can be
    the name of an inherited member: the others hold a dot. *)
Lemma inherited_ancestor_is_root path q :
  q ∈ ancestor_paths path → Js.inherits q = true → q = root_segment path.
Proof.
  intros [i Hi]%list_elem_of_lookup Hin.
  destruct (ancestor_paths path !! S i) as [q'|] eqn:Hnext.
  - destruct (proj1 (proj2 (ancestor_paths_walk path)) i q q' Hi Hnext)
      as (seg & _ & ->).
    by rewrite dotted_not_inherited in Hin.
  - assert (last (ancestor_paths path) = Some q) as Hlast.
    { rewrite last_lookup. rewrite <- Hi. f_equal.
      apply lookup_ge_None in Hnext. apply lookup_lt_Some in Hi. lia. }
    unfold ancestor_paths in Hlast. apply prefixes_of_last in Hlast.
    rewrite last_reverse in Hlast. unfold root_segment. by rewrite Hlast.
Qed.

Lemma plain_root_read idx path q :
  Js.inherits (root_segment path) = false →
  q ∈ ancestor_paths path → idx !! q = None → falsy_read idx q.
Proof.
  intros Hroot Hq Hnone. unfold falsy_read.
  destruct (Js.inherits q) eqn:Hin.
  - pose proof (inherited_ancestor_is_root path q Hq Hin) as Heq.
    rewrite Heq in Hin. congruence.
  - by rewrite read_plain.
Qed.

Lemma segmentPreviewChanges_uncovered changes previews :
  (∀ c, c ∈ changes →
        walk_finds_nothing (buildPathToPreview previews) (Change.path c)) →
  segmentPreviewChanges changes previews =
  Ok {| schemaChangesToReport := changes; previewChangesToReport := [] |}.
Proof.
  intros Hall. unfold segmentPreviewChanges.
  rewrite forEachSegment_schema; [done|].
  intros c Hc. by apply in_schema_walk, Hall.
Qed.

Lemma segmentPreviewChanges_no_previews changes :
  (∀ c, c ∈ changes → Js.inherits (root_segment (Change.path c)) = false) →
  segmentPreviewChanges changes [] =
  Ok {| schemaChangesToReport := changes; previewChangesToReport := [] |}.
Proof.
  intros Hroot. apply segmentPreviewChanges_uncovered.
  intros c Hc q Hq.
  apply (plain_root_read _ (Change.path c)); [by apply Hroot|done|].
  apply lookup_empty.
Qed.

(** X10: changes that nothing covers stay together: when the walk finds no
    truthy value for any change, the general bucket is the input list in its
    order and no preview bucket is created; this is so with no preview at
    all, provided no change lies in a type named like a member of
    [Object.prototype]. *)
Theorem uncovered_changes_stay_general :
  (∀ changes previews,
     (∀ c, c ∈ changes →
           walk_finds_nothing (buildPathToPreview previews) (Change.path c)) →
     segmentPreviewChanges changes previews =
     Ok {| schemaChangesToReport := changes; previewChangesToReport := [] |}) ∧
  (∀ changes,
     (∀ c, c ∈ changes → Js.inherits (root_segment (Change.path c)) = false) →
     segmentPreviewChanges changes [] =
     Ok {| schemaChangesToReport := changes; previewChangesToReport := [] |}).
Proof.
  split.
  - apply segmentPreviewChanges_uncovered.
  - apply segmentPreviewChanges_no_previews.
Qed.

Lemma uncovered_changes_stay_general_witness :
  let change path := {| Change.type := ChangeType.FieldAdded; Change.path := path;
                        Change.message := "Field was added" |} in
  segmentPreviewChanges [change "Query.foo.bar"; change "Mutation.baz"] [] =
  Ok {| schemaChangesToReport := [change "Query.foo.bar"; change "Mutation.baz"];
        previewChangesToReport := [] |}.
Proof.
  intros change. apply (proj2 uncovered_changes_stay_general).
  intros c Hc. revert c Hc. apply Forall_forall. repeat constructor.
Defined.

(** X11: buckets keep the input order and are never empty: when the
    segmentation returns, the general bucket and every preview bucket are
    sublists of the input; a preview bucket is stored under the key its title
    gives, which is not the name of a member of [Object.prototype], its title
    is truthy, it holds at least one change, and the walk of each of its
    changes ended on a value that gives that key. *)
Theorem buckets_keep_input_order changes previews segments :
  segmentPreviewChanges changes previews = Ok segments →
  schemaChangesToReport segments `sublist_of` changes ∧
  ∀ key bucket,
    JsObject.get key (previewChangesToReport segments) = Some bucket →
    Js.toPropertyKey (PreviewChanges.title bucket) = key ∧
    Js.inherits key = false ∧
    Js.truthy (PreviewChanges.title bucket) = true ∧
    PreviewChanges.changes bucket ≠ [] ∧
    PreviewChanges.changes bucket `sublist_of` changes ∧
    ∀ c, c ∈ PreviewChanges.changes bucket →
         ∃ v, walk_finds (buildPathToPreview previews) (Change.path c) v ∧
              Js.toPropertyKey v = key.
Proof.
  intros Hok.
  destruct (segmentPreviewChanges_Ok _ _ _ Hok) as (_ & Hs & Hget & Hkeyed & _ & _).
  set (idx := buildPathToPreview previews) in *.
  split; [rewrite Hs; apply sublist_filter|].
  intros key bucket Hbucket. destruct (Hkeyed _ _ Hbucket) as [Hkey Hin].
  rewrite Hget in Hbucket.
  destruct (filter (in_bucket idx key) changes) as [|c0 cs] eqn:Hf; [done|].
  injection Hbucket as <-. simpl in *.
  assert (c0 ∈ filter (in_bucket idx key) changes) as Hc0
    by (rewrite Hf; by left).
  apply list_elem_of_filter in Hc0 as [[Htruthy _] _].
  split_and!; [done|done|done|done|rewrite <- Hf; apply sublist_filter|].
  intros c Hc. rewrite <- Hf in Hc. apply list_elem_of_filter in Hc as [Hb _].
  by apply in_bucket_walk.
Qed.

Lemma buckets_keep_input_order_witness :
  let change path := {| Change.type := ChangeType.FieldAdded; Change.path := path;
                        Change.message := "Field was added" |} in
  [change "Query.other"] `sublist_of`
    [change "Query.foo.bar"; change "Query.other"; change "Query.foo"].
Proof.
  intros change.
  refine (proj1 (buckets_keep_input_order
            [change "Query.foo.bar"; change "Query.other"; change "Query.foo"]
            [ {| Preview.title := "FooPreview"; Preview.toggled_on := ["Query.foo"] |} ]
            {| schemaChangesToReport := [change "Query.other"];
               previewChangesToReport :=
                 [("FooPreview",
                   {| PreviewChanges.title := Js.Str "FooPreview";
                      PreviewChanges.changes :=
                        [change "Query.foo.bar"; change "Query.foo"] |})] |} _)).
  reflexivity.
Defined.

Lemma join_dot_app (A B : list string) :
  A ≠ [] → B ≠ [] →
  Js.join_dot (A ++ B) = Js.join_dot A +:+ "." +:+ Js.join_dot B.
Proof.
  intros HA HB. induction A as [|a A IH]; [done|].
  destruct A as [|a' A].
  - destruct B; [done|]. done.
  - rewrite <- !app_comm_cons in *. rewrite !join_dot_cons, IH by done.
    by rewrite !string_app_assoc.
Qed.

Lemma prefixes_of_below (rB rA : list string) :
  rA ≠ [] →
  (∀ j q, j < length rB → prefixes_of (rB ++ rA) !! j = Some q →
          ∃ below, q = Js.join_dot (reverse rA) +:+ "." +:+ below) ∧
  prefixes_of (rB ++ rA) !! length rB = Some (Js.join_dot (reverse rA)).
Proof.
  intros HA. induction rB as [|b rB [IHbelow IHat]].
  - split; [intros j q Hj; simpl in Hj; lia|].
    destruct rA; [done|]. done.
  - split; [|exact IHat].
    intros [|j] q Hj; simpl.
    + intros [= <-]. change (b :: rB ++ rA) with ((b :: rB) ++ rA).
      rewrite reverse_app. eexists. apply join_dot_app.
      * intros Hnil%(f_equal length). rewrite length_reverse in Hnil.
        by destruct rA.
      * intros Hnil%(f_equal length). by rewrite length_reverse in Hnil.
    + apply IHbelow. simpl in Hj. lia.
Qed.

Lemma descendant_walk idx path title below :
  idx !! path = Some title → title ≠ "" →
  (∀ deeper, idx !! (path +:+ "." +:+ deeper) = None ∨
             idx !! (path +:+ "." +:+ deeper) = Some "") →
  walk_finds idx (path +:+ "." +:+ below) (Js.Str title).
Proof.
  intros Hl Ht Hdeeper. unfold walk_finds, ancestor_paths.
  rewrite split_dot_app, reverse_app.
  destruct (prefixes_of_below (reverse (Js.split_dot below))
              (reverse (Js.split_dot path))) as [Hbelow Hat].
  { intros Hnil%(f_equal length). rewrite length_reverse in Hnil.
    pose proof (split_dot_nonempty path). by destruct (Js.split_dot path). }
  rewrite reverse_involutive, join_split in Hbelow, Hat.
  exists (length (reverse (Js.split_dot below))), path.
  split_and!; [done|by apply read_own|by apply truthy_Str|].
  intros j q Hj Hq. destruct (Hbelow j q Hj Hq) as [deeper ->].
  unfold falsy_read.
  destruct (Hdeeper deeper) as [Hnone|Hempty].
  - by rewrite read_plain by (done || apply dotted_not_inherited).
  - by rewrite (read_own _ _ _ Hempty).
Qed.

(** X12: a listed path covers its whole subtree: when the index holds a
    non-empty title for a path and no non-empty title for any path below it,
    and the segmentation returns, every change at that path or below it is in
    the bucket of that title. *)
Theorem preview_covers_descendants changes previews segments path title change :
  let pathToPreview := buildPathToPreview previews in
  segmentPreviewChanges changes previews = Ok segments →
  pathToPreview !! path = Some title →
  title ≠ "" →
  (∀ deeper, pathToPreview !! (path +:+ "." +:+ deeper) = None ∨
             pathToPreview !! (path +:+ "." +:+ deeper) = Some "") →
  change ∈ changes →
  (Change.path change = path ∨
   ∃ below, Change.path change = path +:+ "." +:+ below) →
  ∃ bucket,
    JsObject.get title (previewChangesToReport segments) = Some bucket ∧
    change ∈ PreviewChanges.changes bucket.
Proof.
  intros idx Hok Hl Ht Hdeeper Hin Hpath.
  assert (in_bucket idx title change) as Hb.
  { destruct Hpath as [Hpath|[below Hpath]].
    - unfold in_bucket, previewTitleOf. rewrite Hpath.
      rewrite (ancestorLoop_full_path _ _ _ Hl Ht). split; [by apply truthy_Str|done].
    - apply in_bucket_walk. exists (Js.Str title). split; [|done].
      rewrite Hpath. by apply descendant_walk. }
  destruct (segmentPreviewChanges_Ok _ _ _ Hok) as (_ & _ & Hget & _).
  fold idx in Hget. rewrite Hget.
  assert (change ∈ filter (in_bucket idx title) changes) as Hc
    by by apply list_elem_of_filter.
  destruct (filter (in_bucket idx title) changes) as [|c0 cs];
    [by apply elem_of_nil in Hc|]. eauto.
Qed.

Lemma preview_covers_descendants_witness :
  let change := {| Change.type := ChangeType.FieldArgumentAdded;
                   Change.path := "Repository.pinnedItems.types";
                   Change.message := "Argument 'types' was added" |} in
  ∃ bucket,
    JsObject.get "PinnedItemsPreview"
      [("PinnedItemsPreview",
        {| PreviewChanges.title := Js.Str "PinnedItemsPreview";
           PreviewChanges.changes := [change] |})]
      = Some bucket ∧
    change ∈ PreviewChanges.changes bucket.
Proof.
  intros change.
  apply (preview_covers_descendants [change]
           [ {| Preview.title := "PinnedItemsPreview";
                Preview.toggled_on := ["Repository.pinnedItems"] |} ]
           {| schemaChangesToReport := [];
              previewChangesToReport :=
                [("PinnedItemsPreview",
                  {| PreviewChanges.title := Js.Str "PinnedItemsPreview";
                     PreviewChanges.changes := [change] |})] |}
           "Repository.pinnedItems").
  - reflexivity.
  - reflexivity.
  - done.
  - intros deeper. left. unfold buildPathToPreview. simpl.
    rewrite lookup_insert_ne; [apply lookup_empty|].
    intros Heq%(f_equal String.length). rewrite !string_length_app in Heq.
    simpl in Heq. lia.
  - by left.
  - right. by exists "types".
Defined.

(** X19: whenever the segmentation returns, the general bucket and the
    preview buckets together hold the input changes, each exactly once: they
    are a permutation of the input, their sizes add up to its length, bucket
    keys are distinct, no change is in two buckets, and every input change is
    in one. *)
Theorem segmentation_partitions changes previews segments :
  segmentPreviewChanges changes previews = Ok segments →
  let buckets := previewChangesToReport segments in
  schemaChangesToReport segments ++ bucket_changes buckets ≡ₚ changes ∧
  length (schemaChangesToReport segments)
    + sum_list ((fun b => length (PreviewChanges.changes b)) <$> JsObject.values buckets)
    = length changes ∧
  NoDup buckets.*1 ∧
  (∀ change key bucket,
     change ∈ schemaChangesToReport segments →
     JsObject.get key buckets = Some bucket →
     change ∉ PreviewChanges.changes bucket) ∧
  (∀ change key key' bucket bucket',
     JsObject.get key buckets = Some bucket →
     JsObject.get key' buckets = Some bucket' →
     change ∈ PreviewChanges.changes bucket →
     change ∈ PreviewChanges.changes bucket' →
     key = key') ∧
  (∀ change,
     change ∈ changes →
     change ∈ schemaChangesToReport segments ∨
     ∃ key bucket, JsObject.get key buckets = Some bucket ∧
                   change ∈ PreviewChanges.changes bucket).
Proof.
  intros Hok buckets.
  destruct (segmentPreviewChanges_Ok _ _ _ Hok) as (_ & Hs & Hget & _ & Hnd & Hperm).
  fold buckets in Hget, Hnd, Hperm.
  set (idx := buildPathToPreview previews) in *.
  assert (Hall : schemaChangesToReport segments ++ bucket_changes buckets ≡ₚ changes).
  { rewrite Hs, Hperm. apply filter_app_complement. }
  assert (Hbucket : ∀ k b c, JsObject.get k buckets = Some b →
            c ∈ PreviewChanges.changes b → in_bucket idx k c ∧ c ∈ changes).
  { intros k b c. rewrite Hget.
    destruct (filter (in_bucket idx k) changes) as [|c0 cs] eqn:Hf; [done|].
    intros [= <-]. simpl. rewrite <- Hf. by intros ?%list_elem_of_filter. }
  split_and!; [done| |done| | |].
  - apply Permutation_length in Hall. rewrite length_app in Hall.
    rewrite <- Hall. f_equal. unfold bucket_changes.
    induction (JsObject.values buckets) as [|b bs IH]; [done|].
    rewrite !fmap_cons. simpl. by rewrite length_app, <- IH.
  - intros c k b Hc Hb Hcb. rewrite Hs in Hc. apply list_elem_of_filter in Hc as [Hsch _].
    destruct (Hbucket _ _ _ Hb Hcb) as [Hp _].
    by apply (in_schema_not_in_bucket _ _ k) in Hsch.
  - intros c k k' b b' Hb Hb' Hc Hc'.
    destruct (Hbucket _ _ _ Hb Hc) as [[_ Hk] _].
    destruct (Hbucket _ _ _ Hb' Hc') as [[_ Hk'] _]. congruence.
  - intros c Hin.
    destruct (in_schema_or_bucket idx c) as [[Hsch _]|(k & Hb & _)].
    + left. rewrite Hs. by apply list_elem_of_filter.
    + right. assert (c ∈ filter (in_bucket idx k) changes) as Hc
        by by apply list_elem_of_filter.
      specialize (Hget k).
      destruct (filter (in_bucket idx k) changes) as [|c0 cs];
        [by apply elem_of_nil in Hc|]. eauto.
Qed.

Lemma segmentation_partitions_witness :
  let change path := {| Change.type := ChangeType.FieldAdded; Change.path := path;
                        Change.message := "Field was added" |} in
  [change "Query.other"] ++ [change "constructor"; change "Query.foo"]
  ≡ₚ [change "constructor"; change "Query.other"; change "Query.foo"].
Proof.
  intros change.
  refine (proj1 (segmentation_partitions
            [change "constructor"; change "Query.other"; change "Query.foo"]
            [ {| Preview.title := "FooPreview"; Preview.toggled_on := ["Query.foo"] |} ]
            {| schemaChangesToReport := [change "Query.other"];
               previewChangesToReport :=
                 [("function Object() { [native code] }",
                   {| PreviewChanges.title := Js.Member "constructor";
                      PreviewChanges.changes := [change "constructor"] |});
                  ("FooPreview",
                   {| PreviewChanges.title := Js.Str "FooPreview";
                      PreviewChanges.changes := [change "Query.foo"] |})] |} _)).
  reflexivity.
Defined.

(** X20: whenever the segmentation returns, a change is attributed by the
    first truthy value the walk reads: it is in the bucket stored under the
    key of that value and not in the general bucket, or in the general bucket
    and in no other when the walk reads nothing truthy.  The walk tests the
    full path and then each ancestor; a read gives the title the index holds,
    and for a path the index does not hold it gives nothing unless the path is
    the name of a member of [Object.prototype]. *)
Theorem attribution_by_first_truthy_read changes previews segments :
  segmentPreviewChanges changes previews = Ok segments →
  let pathToPreview := buildPathToPreview previews in
  (∀ change v,
     change ∈ changes →
     walk_finds pathToPreview (Change.path change) v →
     (change ∉ schemaChangesToReport segments) ∧
     ∃ bucket,
       JsObject.get (Js.toPropertyKey v) (previewChangesToReport segments)
         = Some bucket ∧
       change ∈ PreviewChanges.changes bucket) ∧
  (∀ change,
     change ∈ changes →
     walk_finds_nothing pathToPreview (Change.path change) →
     change ∈ schemaChangesToReport segments ∧
     ∀ key bucket,
       JsObject.get key (previewChangesToReport segments) = Some bucket →
       change ∉ PreviewChanges.changes bucket) ∧
  (∀ path,
     ancestor_paths path !! 0 = Some path ∧
     (∀ i p q, ancestor_paths path !! i = Some p →
               ancestor_paths path !! S i = Some q →
               ∃ seg, no_dot seg ∧ p = q +:+ "." +:+ seg) ∧
     (∀ p, last (ancestor_paths path) = Some p → no_dot p)) ∧
  (∀ p title, pathToPreview !! p = Some title →
              readPathToPreview pathToPreview p = Js.Str title) ∧
  (∀ p, pathToPreview !! p = None → Js.inherits p = false →
        readPathToPreview pathToPreview p = Js.Undefined).
Proof.
  intros Hok idx.
  destruct (segmentPreviewChanges_Ok _ _ _ Hok) as (_ & Hs & Hget & _).
  fold idx in Hs, Hget.
  split_and!.
  - intros c v Hin Hwalk.
    assert (in_bucket idx (Js.toPropertyKey v) c) as Hb
      by (apply in_bucket_walk; eauto).
    split.
    + rewrite Hs, list_elem_of_filter. intros [Hsch _].
      by apply (in_schema_not_in_bucket _ _ (Js.toPropertyKey v)) in Hsch.
    + assert (c ∈ filter (in_bucket idx (Js.toPropertyKey v)) changes) as Hc
        by by apply list_elem_of_filter.
      rewrite Hget.
      destruct (filter (in_bucket idx (Js.toPropertyKey v)) changes) as [|c0 cs];
        [by apply elem_of_nil in Hc|]. eauto.
  - intros c Hin Hun%in_schema_walk. split.
    + rewrite Hs. by apply list_elem_of_filter.
    + intros k b. rewrite Hget.
      destruct (filter (in_bucket idx k) changes) as [|c0 cs] eqn:Hf; [done|].
      intros [= <-]. simpl. rewrite <- Hf, list_elem_of_filter. intros [Hp _].
      by apply (in_schema_not_in_bucket _ _ k) in Hun.
  - apply ancestor_paths_walk.
  - apply read_own.
  - apply read_plain.
Qed.

Lemma attribution_by_first_truthy_read_witness :
  let change path := {| Change.type := ChangeType.FieldAdded; Change.path := path;
                        Change.message := "Field was added" |} in
  readPathToPreview
    (buildPathToPreview
       [ {| Preview.title := "FooPreview"; Preview.toggled_on := ["Query.foo"] |} ])
    "Query.foo" = Js.Str "FooPreview".
Proof.
  intros change.
  refine (proj1 (proj2 (proj2 (proj2 (attribution_by_first_truthy_read
            [change "Query.foo.bar"; change "Query.other"]
            [ {| Preview.title := "FooPreview"; Preview.toggled_on := ["Query.foo"] |} ]
            {| schemaChangesToReport := [change "Query.other"];
               previewChangesToReport :=
                 [("FooPreview",
                   {| PreviewChanges.title := Js.Str "FooPreview";
                      PreviewChanges.changes := [change "Query.foo.bar"] |})] |} _))))
          "Query.foo" "FooPreview" _); reflexivity.
Defined.

(** X21: the segmentation throws exactly when the walk of some change ends
    on a title that names a member of [Object.prototype], and what it throws
    is the [TypeError] of [undefined.push]; it has no other error. *)
Theorem segmentation_throws_iff changes previews e :
  segmentPreviewChanges changes previews = Throw e ↔
  e = TypeErrorOfUndefined "push" ∧
  ∃ c title, c ∈ changes ∧
             walk_finds (buildPathToPreview previews) (Change.path c) (Js.Str title) ∧
             Js.inherits title = true.
Proof.
  destruct (segmentPreviewChanges_cases changes previews)
    as [[Hex ->]|(Hall & r & -> & _)].
  - split.
    + intros [= <-]. split; [done|].
      apply Exists_exists in Hex as (c & Hc & Hhit).
      apply hits_member_walk in Hhit as (t & Hwalk & Hin). eauto.
    + by intros [-> _].
  - split; [done|]. intros (_ & c & t & Hc & Hwalk & Hin).
    rewrite Forall_forall in Hall. destruct (Hall c Hc).
    apply hits_member_walk. eauto.
Qed.

(** * Further properties of the entry builder *)

Section ForInFacts.
Context {V : Type}.
Implicit Types (o : JsObject.t V).

Lemma insert_by_index_perm (e : N * (string * V)) sorted :
  JsObject.insert_by_index e sorted ≡ₚ e :: sorted.
Proof.
  induction sorted as [|e' sorted IH]; simpl; [done|].
  destruct (e.1 <? e'.1)%N; [done|]. rewrite IH. apply Permutation_swap.
Qed.

Lemma index_sort_perm (entries : list (N * (string * V))) :
  foldr JsObject.insert_by_index [] entries ≡ₚ entries.
Proof.
  induction entries as [|e entries IH]; simpl; [done|].
  by rewrite insert_by_index_perm, IH.
Qed.

Lemma forIn_perm o : JsObject.forIn o ≡ₚ o.
Proof.
  unfold JsObject.forIn. rewrite index_sort_perm.
  induction o as [|[k v] o IH]; [done|].
  unfold JsObject.index_entries, JsObject.named_entries in *. simpl.
  destruct (JsObject.array_index k) as [n|]; simpl.
  - by rewrite IH.
  - rewrite <- Permutation_middle. by rewrite IH.
Qed.

Lemma forIn_named o :
  Forall (fun kv => JsObject.array_index kv.1 = None) o → JsObject.forIn o = o.
Proof.
  intros Hnamed.
  assert (JsObject.index_entries o = [] ∧ JsObject.named_entries o = o) as [Hi Hn].
  { unfold JsObject.index_entries, JsObject.named_entries.
    induction Hnamed as [|[k v] o Hk _ [IHi IHn]]; [done|].
    simpl in *. rewrite Hk. split; [exact IHi|by rewrite IHn]. }
  unfold JsObject.forIn. by rewrite Hi, Hn.
Qed.
End ForInFacts.

(** X13: the preview sections of an entry are one per bucket: up to order they are
    the buckets, each turned into its section; when no title is an array
    index they come in the order the buckets were created; and the entry
    never has upcoming changes. *)
Theorem preview_sections_cover_buckets schemaChanges changesByPreview :
  let entry := newChangelogEntry schemaChanges changesByPreview in
  ChangelogEntry.previewChanges entry ≡ₚ
    (fun kv => previewSection kv.1 kv.2) <$> changesByPreview ∧
  length (ChangelogEntry.previewChanges entry) = length changesByPreview ∧
  (Forall (fun kv => JsObject.array_index kv.1 = None) changesByPreview →
   ChangelogEntry.previewChanges entry =
     (fun kv => previewSection kv.1 kv.2) <$> changesByPreview) ∧
  ChangelogEntry.upcomingChanges entry = [].
Proof.
  intros entry. unfold entry, newChangelogEntry. simpl. split_and!; [| | |done].
  - by rewrite forIn_perm.
  - by rewrite length_fmap, forIn_perm.
  - intros Hnamed. by rewrite forIn_named.
Qed.

Section EntryMoreFacts.
Context {Schema : Type}.
Variable loadSchema : string -> option Schema.
Variable diff : Schema -> Schema -> list Change.t.

(** X14: a schema that fails to load rejects the whole call, whatever the other
    schema, the diff and the previews are; the old schema is loaded first. *)
Theorem rejected_load_rejects oldSchemaString newSchemaString previews :
  (loadSchema oldSchemaString = None →
   createChangelogEntry loadSchema diff oldSchemaString newSchemaString previews
     = Throw (LoadSchemaRejected oldSchemaString)) ∧
  (is_Some (loadSchema oldSchemaString) →
   loadSchema newSchemaString = None →
   createChangelogEntry loadSchema diff oldSchemaString newSchemaString previews
     = Throw (LoadSchemaRejected newSchemaString)).
Proof.
  unfold createChangelogEntry, awaitLoadSchema. split.
  - by intros ->.
  - by intros [oldSchema ->] ->.
Qed.

(** X15: when both schemas load and every kind is known, the call has three
    outcomes and each is characterised: it is rejected with the [TypeError]
    of [undefined.push] exactly when the walk of some reportable change ends
    on a title that names a member of [Object.prototype]; otherwise it
    resolves to [null] exactly when the walk of every reportable change finds
    a truthy value, and to an entry exactly when the walk of some reportable
    change finds none. *)
Theorem entry_returned_iff oldSchemaString newSchemaString previews
    oldSchema newSchema :
  loadSchema oldSchemaString = Some oldSchema →
  loadSchema newSchemaString = Some newSchema →
  (∀ c, c ∈ diff oldSchema newSchema → reportable c ∨ ignored c) →
  let pathToPreview := buildPathToPreview previews in
  let result :=
    createChangelogEntry loadSchema diff oldSchemaString newSchemaString previews in
  let aborts :=
    ∃ c title, c ∈ diff oldSchema newSchema ∧ reportable c ∧
               walk_finds pathToPreview (Change.path c) (Js.Str title) ∧
               Js.inherits title = true in
  (result = Throw (TypeErrorOfUndefined "push") ↔ aborts) ∧
  (result = Ok None ↔
   ¬ aborts ∧
   ∀ c, c ∈ diff oldSchema newSchema → reportable c →
        ∃ v, walk_finds pathToPreview (Change.path c) v) ∧
  ((∃ entry, result = Ok (Some entry)) ↔
   ¬ aborts ∧
   ∃ c, c ∈ diff oldSchema newSchema ∧ reportable c ∧
        walk_finds_nothing pathToPreview (Change.path c)).
Proof.
  intros Hold Hnew Hknown idx result aborts.
  assert (Hclass : classifyChanges (diff oldSchema newSchema)
                   = Ok (filter reportable (diff oldSchema newSchema))).
  { apply classifier_keeps_all. by apply Forall_forall. }
  set (changes := diff oldSchema newSchema) in *.
  destruct (segmentPreviewChanges_cases (filter reportable changes) previews)
    as [[Hex Hthrow]|(Hall & r & Hok & Hs & _)]; fold idx in Hex || fold idx in Hall, Hs.
  - assert (Haborts : aborts).
    { apply Exists_exists in Hex as (c & Hc & Hhit).
      apply list_elem_of_filter in Hc as [Hr Hc].
      apply hits_member_walk in Hhit as (t & Hwalk & Hin).
      exists c, t. done. }
    assert (result = Throw (TypeErrorOfUndefined "push")) as ->
      by apply (createChangelogEntry_segment_throw loadSchema diff _ _ _ _ _ _ _
                  Hold Hnew Hclass Hthrow).
    split_and!.
    + done.
    + split; [done|]. by intros [? _].
    + split; [by intros [? ?]|]. by intros [? _].
  - assert (Hno : ¬ aborts).
    { intros (c & t & Hc & Hr & Hwalk & Hin).
      rewrite Forall_forall in Hall. apply (Hall c).
      - by apply list_elem_of_filter.
      - apply hits_member_walk. eauto. }
    assert (result =
            match schemaChangesToReport r with
            | [] => Ok None
            | _ :: _ => Ok (Some (newChangelogEntry (schemaChangesToReport r)
                                                    (previewChangesToReport r)))
            end) as ->
      by apply (createChangelogEntry_loaded loadSchema diff _ _ _ _ _ _ _ Hold Hnew Hclass Hok).
    rewrite Hs.
    destruct (filter (in_schema idx) (filter reportable changes)) as [|c0 cs] eqn:Hf.
    + assert (Hevery : ∀ c, c ∈ changes → reportable c →
                ∃ v, walk_finds idx (Change.path c) v).
      { intros c Hc Hr.
        destruct (in_schema_or_bucket idx c) as [[Hsch _]|(k & Hb & _)].
        - assert (c ∈ filter (in_schema idx) (filter reportable changes)) as Hin
            by by rewrite !list_elem_of_filter.
          rewrite Hf in Hin. by apply elem_of_nil in Hin.
        - apply in_bucket_walk in Hb as (v & Hwalk & _). eauto. }
      split_and!.
      * split; [done|]. intros Ha. by destruct Hno.
      * done.
      * split; [by intros [? ?]|].
        intros (_ & c & Hc & Hr & Hun). destruct (Hevery c Hc Hr) as [v Hwalk].
        apply in_schema_walk in Hun.
        apply (in_schema_not_in_bucket _ _ (Js.toPropertyKey v)) in Hun.
        destruct Hun. apply in_bucket_walk. eauto.
    + assert (c0 ∈ filter (in_schema idx) (filter reportable changes)) as Hc0
        by (rewrite Hf; by left).
      rewrite !list_elem_of_filter in Hc0. destruct Hc0 as (Hsch & Hr & Hc).
      split_and!.
      * split; [done|]. intros Ha. by destruct Hno.
      * split; [done|]. intros [_ Hevery]. destruct (Hevery c0 Hc Hr) as [v Hwalk].
        apply (in_schema_not_in_bucket _ _ (Js.toPropertyKey v)) in Hsch.
        destruct Hsch. apply in_bucket_walk. eauto.
      * split; [|eauto]. intros _. split; [done|]. exists c0. split_and!; [done..|].
        by apply in_schema_walk.
Qed.

(** X16: without preview definitions, and when no reportable change lies in
    a type named like a member of [Object.prototype], the whole pipeline is:
    keep the reportable changes in order, clean their messages, and return
    one schema section with them, no preview section and no upcoming change,
    or [null] when nothing is reportable. *)
Theorem entry_without_previews oldSchemaString newSchemaString oldSchema newSchema :
  loadSchema oldSchemaString = Some oldSchema →
  loadSchema newSchemaString = Some newSchema →
  (∀ c, c ∈ diff oldSchema newSchema → reportable c ∨ ignored c) →
  (∀ c, c ∈ diff oldSchema newSchema → reportable c →
        Js.inherits (root_segment (Change.path c)) = false) →
  createChangelogEntry loadSchema diff oldSchemaString newSchemaString [] =
  match filter reportable (diff oldSchema newSchema) with
  | [] => Ok None
  | changesToReport =>
      Ok (Some
        {| ChangelogEntry.schemaChanges :=
             [ {| ChangelogSection.title :=
                    "The GraphQL schema includes these changes:";
                  ChangelogSection.changes :=
                    (fun c => replace_quoted (Change.message c)) <$> changesToReport |} ];
           ChangelogEntry.previewChanges := [];
           ChangelogEntry.upcomingChanges := [] |})
  end.
Proof.
  intros Hold Hnew Hknown Hroot.
  assert (Hclass : classifyChanges (diff oldSchema newSchema)
                   = Ok (filter reportable (diff oldSchema newSchema))).
  { apply classifier_keeps_all. by apply Forall_forall. }
  assert (Hseg : segmentPreviewChanges (filter reportable (diff oldSchema newSchema)) []
            = Ok {| schemaChangesToReport := filter reportable (diff oldSchema newSchema);
                    previewChangesToReport := [] |}).
  { apply segmentPreviewChanges_no_previews.
    intros c [Hr Hc]%list_elem_of_filter. by apply Hroot. }
  rewrite (createChangelogEntry_loaded _ _ _ _ _ _ _ _ _ Hold Hnew Hclass Hseg).
  simpl. by destruct (filter reportable (diff oldSchema newSchema)).
Qed.
End EntryMoreFacts.

(** * The date tag *)

Lemma enumerate_below (P : N → Prop) `{∀ n, Decision (P n)} (first count : nat) :
  bool_decide (Forall (fun k => P (N.of_nat k)) (seq first count)) = true →
  ∀ n, (N.of_nat first ≤ n < N.of_nat (first + count))%N → P n.
Proof.
  intros Hall%bool_decide_eq_true n Hn. rewrite Forall_forall in Hall.
  rewrite <- (N2Nat.id n). apply Hall, elem_of_seq. lia.
Qed.

Lemma padStart_two_digits n : (n < 100)%N → two_digit_form n.
Proof.
  intros Hn. apply (enumerate_below two_digit_form 0 100); [|lia].
  vm_compute. reflexivity.
Qed.

Lemma pretty_four_digits n :
  (1000 ≤ n ≤ 9999)%N → String.length (pretty n) = 4.
Proof.
  intros Hn. unfold pretty, pretty_N. rewrite decide_False by lia.
  rewrite pretty_N_go_step by lia.
  rewrite pretty_N_go_step by (apply N.div_str_pos; lia).
  rewrite pretty_N_go_step by (apply N.div_str_pos; split; [lia|]; apply N.div_le_lower_bound; lia).
  assert (N.div (N.div (N.div (N.div n 10) 10) 10) 10 = 0%N) as Hzero.
  { rewrite !N.Div0.div_div. apply N.div_small. lia. }
  assert (0 < N.div (N.div (N.div n 10) 10) 10)%N as Hpos.
  { rewrite !N.Div0.div_div. apply N.div_str_pos. lia. }
  rewrite pretty_N_go_step by done. by rewrite Hzero, pretty_N_go_0.
Qed.

(** X17: the date tag is the year, the month counted from one and the day, joined
    by hyphens, month and day each written with exactly two digits; for a
    four-digit year it is ten characters long. *)
Theorem todayString_format fullYear month date :
  (month < 12)%N → (1 ≤ date ≤ 31)%N →
  (∃ mm dd,
     todayString fullYear month date =
       pretty fullYear +:+ "-" +:+ mm +:+ "-" +:+ dd ∧
     String.length mm = 2 ∧ String.length dd = 2 ∧
     JsObject.digits_value mm 0 = Some (month + 1)%N ∧
     JsObject.digits_value dd 0 = Some date) ∧
  ((1000 ≤ fullYear ≤ 9999)%N →
   String.length (todayString fullYear month date) = 10).
Proof.
  intros Hmonth Hdate.
  destruct (padStart_two_digits (month + 1)) as [Hml Hmv]; [lia|].
  destruct (padStart_two_digits date) as [Hdl Hdv]; [lia|].
  split.
  - exists (padStart 2 "0" (pretty (month + 1)%N)), (padStart 2 "0" (pretty date)).
    by split_and!.
  - intros Hyear. unfold todayString.
    rewrite !string_length_app, Hml, Hdl, pretty_four_digits by done. simpl. lia.
Qed.

Lemma todayString_format_witness :
  String.length (todayString 2020 8 5) = 10.
Proof.
  refine (proj2 (todayString_format 2020 8 5 _ _) _); lia.
Defined.

Lemma entry_returned_iff_witness :
  let removed := {| Change.type := ChangeType.FieldRemoved; Change.path := "Query.foo";
                    Change.message := "Field 'foo' was removed from object type 'Query'" |} in
  let described := {| Change.type := ChangeType.TypeDescriptionChanged;
                      Change.path := "Query";
                      Change.message := "Description changed on type 'Query'" |} in
  let previews :=
    [ {| Preview.title := "BarPreview"; Preview.toggled_on := ["Query.bar"] |} ] in
  ∃ c, c ∈ [removed; described] ∧ reportable c ∧
       walk_finds_nothing (buildPathToPreview previews) (Change.path c).
Proof.
  intros removed described previews.
  refine (proj2 (proj1 (proj2 (proj2
    (entry_returned_iff (fun _ => Some tt) (fun _ _ => [removed; described])
       "type Query { foo: String }" "type Query { bar: Int }" previews
       tt tt (@eq_refl _ _) (@eq_refl _ _) _))) _)).
  - intros c Hc. apply (bool_decide_unpack _). revert c Hc.
    apply Forall_forall. repeat constructor; vm_compute; exact I.
  - eexists. reflexivity.
Defined.

Lemma entry_without_previews_witness :
  let removed := {| Change.type := ChangeType.FieldRemoved; Change.path := "Query.foo";
                    Change.message := "Field 'foo' was removed from object type 'Query'" |} in
  let added := {| Change.type := ChangeType.FieldAdded; Change.path := "Query.bar";
                  Change.message := "Field 'bar' was added to object type 'Query'" |} in
  createChangelogEntry (fun _ : string => Some tt) (fun _ _ : unit => [removed; added])
    "type Query { foo: String }" "type Query { bar: Int }" []
  = Ok (Some
      {| ChangelogEntry.schemaChanges :=
           [ {| ChangelogSection.title := "The GraphQL schema includes these changes:";
                ChangelogSection.changes :=
                  [ "Field `foo` was removed from object type `Query`";
                    "Field `bar` was added to object type `Query`" ] |} ];
         ChangelogEntry.previewChanges := [];
         ChangelogEntry.upcomingChanges := [] |}).
Proof.
  intros removed added.
  refine (eq_trans (entry_without_previews (fun _ => Some tt)
                      (fun _ _ => [removed; added]) _ _ tt tt
                      (@eq_refl _ _) (@eq_refl _ _) _ _) _).
  - intros c Hc. apply (bool_decide_unpack _). revert c Hc.
    apply Forall_forall. repeat constructor; vm_compute; exact I.
  - intros c Hc _. revert c Hc.
    apply Forall_forall. repeat constructor.
  - vm_compute. reflexivity.
Defined.

(** X18: no message of an entry holds a quoted span any more: every message of
    every section, schema or preview, is left unchanged by the cleanup. *)
Theorem entry_messages_are_clean schemaChanges changesByPreview section message :
  let entry := newChangelogEntry schemaChanges changesByPreview in
  section ∈ ChangelogEntry.schemaChanges entry ++ ChangelogEntry.previewChanges entry →
  message ∈ ChangelogSection.changes section →
  replace_quoted message = message.
Proof.
  intros entry Hsection Hmessage.
  assert (∃ changes, ChangelogSection.changes section = cleanMessagesFromChanges changes)
    as [changes Hchanges].
  { apply elem_of_app in Hsection as [Hs|Hp].
    - apply list_elem_of_singleton in Hs as ->. by eexists.
    - simpl in Hp. apply list_elem_of_fmap in Hp as ([k bucket] & -> & _). by eexists. }
  rewrite Hchanges in Hmessage. unfold cleanMessagesFromChanges in Hmessage.
  apply list_elem_of_fmap in Hmessage as (c & -> & _). apply replace_quoted_twice.
Qed.

Lemma entry_messages_are_clean_witness :
  replace_quoted "Field `foo` was removed from object type `Query`"
  = "Field `foo` was removed from object type `Query`".
Proof.
  apply (entry_messages_are_clean
           [ {| Change.type := ChangeType.FieldRemoved; Change.path := "Query.foo";
                Change.message := "Field 'foo' was removed from object type 'Query'" |} ]
           []
           {| ChangelogSection.title := "The GraphQL schema includes these changes:";
              ChangelogSection.changes :=
                [ "Field `foo` was removed from object type `Query`" ] |}).
  - left.
  - left.
Defined.
